(** * ReconstructionOcTree: a shallow embedding of
    [prototype/src/main/jni/reconstruction_octree.cc]

    The octree keeps 3-D points in the leaves of a lazily materialised
    tree of octants.  Every method of the C++ class is embedded as a
    computation over the state of the node it is called on ([this]); a call
    through [children_[i]->] runs the callee on the child stored in slot [i]
    and stores the callee's final state back in that slot, because each child
    is owned by exactly one parent.  Recursive methods take a fuel argument
    that bounds the nesting of calls; a computation answers [None] when the
    fuel is exhausted or when the C++ program has no defined behaviour
    (signed overflow, dereference of a pointer that was never set). *)

From Stdlib Require Import ZArith List Bool Lia Floats Uint63.
From stdpp Require Import base tactics option list sets.
Import ListNotations.

Local Open Scope Z_scope.

(** ** Numbers *)

(** The coordinates are [float]s of [glm::vec3], the ranges are [double]s.
    The octree only adds a half range to a coordinate, halves a range,
    compares with [<] and [>], and stores one such sum in a component of a
    [glm::vec3].  The development is generic in the arithmetic: nothing
    below depends on how these operations round. *)
Class Scalar : Type := {
  scalar : Type;
  s_add : scalar -> scalar -> scalar;
  s_half : scalar -> scalar;
  s_ltb : scalar -> scalar -> bool;
  (** the conversion of a [double] to the [float] of a component of a
      [glm::vec3] *)
  s_narrow : scalar -> scalar;
  (** the value of a component of a default-constructed [glm::vec3] *)
  s_default : scalar
}.

(** [a > b] of C++ is [b < a], also on floating-point numbers. *)
Definition s_gtb `{Scalar} (a b : scalar) : bool := s_ltb b a.

(** The conversion of a [double] to [float], as the hardware computes it:
    the nearest binary32 number, ties to even, an infinity beyond the
    range.  The result is again written as a binary64 number.

    With [x] = f * 2 ^ E and 1/2 <= |f| < 1, the binary32 numbers around
    [x] are the multiples of u = 2 ^ max (E - 24) (-149).  Adding and
    subtracting 3 * 2 ^ 51 * u rounds [x] to the nearest of them, ties to
    even, because the sum lies where the binary64 numbers are the multiples
    of u.  [frshiftexp] and [ldshiftexp] count exponents from 2101. *)
Definition float_of_double (x : float) : float :=
  let (_, e) := PrimFloat.frshiftexp x in
  if negb (PrimFloat.eqb x x) then x
  else if PrimFloat.eqb (PrimFloat.abs x) infinity then x
  else if PrimInt63.ltb 2229 e then
    if PrimFloat.ltb x 0 then neg_infinity else infinity
  else
    let k :=
      if PrimInt63.ltb e 1976 then 1952%uint63 else PrimInt63.sub e 24 in
    let c := PrimFloat.ldshiftexp 0x1.8p52 k in
    let r := (x + c - c)%float in
    if PrimFloat.leb 0x1p128 (PrimFloat.abs r) then
      if PrimFloat.ltb x 0 then neg_infinity else infinity
    else if PrimFloat.eqb r 0 then (x * 0)%float
    else r.

(** The same conversion by the rounding of the Standard Library's
    specification of IEEE 754 arithmetic, at precision 24 and maximal
    exponent 128. *)
Definition binary32_round (x : float) : float :=
  match Prim2SF x with
  | S754_finite s m e => SF2Prim (SpecFloat.binary_round 24 128 s m e)
  | _ => x
  end.

(** Numbers on which the two are compared: mantissas of 53 bits at and
    around the binary32 numbers and the midpoints between them, at every
    exponent from below the least binary32 number to beyond the greatest,
    with both signs. *)
Definition mantissas : list Z :=
  [2 ^ 52; 2 ^ 52 + 1; 2 ^ 53 - 1;
   2 ^ 52 + 2 ^ 28 - 1; 2 ^ 52 + 2 ^ 28; 2 ^ 52 + 2 ^ 28 + 1;
   2 ^ 52 + 2 ^ 29 - 1; 2 ^ 52 + 2 ^ 29; 2 ^ 52 + 2 ^ 29 + 1;
   2 ^ 52 + 3 * 2 ^ 28 - 1; 2 ^ 52 + 3 * 2 ^ 28; 2 ^ 52 + 3 * 2 ^ 28 + 1;
   2 ^ 53 - 2 ^ 29; 2 ^ 53 - 2 ^ 29 + 1;
   2 ^ 53 - 2 ^ 28 - 1; 2 ^ 53 - 2 ^ 28; 2 ^ 53 - 2 ^ 28 + 1;
   2 ^ 52 + 2 ^ 49 - 1; 2 ^ 52 + 2 ^ 49; 2 ^ 52 + 2 ^ 49 + 1;
   2 ^ 52 + 2 ^ 50 - 1; 2 ^ 52 + 2 ^ 50; 2 ^ 52 + 2 ^ 50 + 1;
   2 ^ 52 + 2 ^ 51 - 1; 2 ^ 52 + 2 ^ 51; 2 ^ 52 + 2 ^ 51 + 1;
   2 ^ 52 + 2 ^ 51 + 2 ^ 50 - 1; 2 ^ 52 + 2 ^ 51 + 2 ^ 50;
   2 ^ 52 + 2 ^ 51 + 2 ^ 50 + 1;
   2 ^ 52 + 2 ^ 51 - 2 ^ 28; 2 ^ 52 + 2 ^ 51 + 2 ^ 28;
   2 ^ 52 + 2 ^ 30; 2 ^ 52 + 2 ^ 31; 2 ^ 52 + 2 ^ 40 + 2 ^ 39; 2 ^ 52 + 2 ^ 45;
   5629499534213120; 6004799503160661; 7205759403792794; 8106479329266893].

Definition exponents : list Z :=
  map (fun n => Z.of_nat n - 260) (seq 0 400).

Definition float_of_mantissa (m e : Z) : float :=
  Z.ldexp (PrimFloat.of_uint63 (Uint63.of_Z m)) e.

Definition rounds_alike (x : float) : bool :=
  PrimFloat.Leibniz.eqb (float_of_double x) (binary32_round x).

Definition rounds_alike_at (e : Z) : bool :=
  forallb (fun m => rounds_alike (float_of_mantissa m e)
                    && rounds_alike (- float_of_mantissa m e)%float)
    mantissas.

(** IEEE 754 binary64 arithmetic, as the hardware computes it.  Every
    [float] of the source is also a binary64 number, and the default
    constructor of [glm::vec3] sets the components to zero. *)
#[export] Instance binary64 : Scalar := {|
  scalar := float;
  s_add := PrimFloat.add;
  s_half := fun r => PrimFloat.div r 2%float;
  s_ltb := PrimFloat.ltb;
  s_narrow := float_of_double;
  s_default := 0%float
|}.

(** [int] is a 32-bit two's complement integer. *)
Definition INT_MIN : Z := - 2 ^ 31.
Definition INT_MAX : Z := 2 ^ 31 - 1.

Definition in_int (z : Z) : bool := (INT_MIN <=? z) && (z <=? INT_MAX).

(** Signed arithmetic that leaves the range of [int] has no defined
    behaviour. *)
Definition int_add (a b : Z) : option Z :=
  if in_int (a + b) then Some (a + b) else None.

Definition int_sub (a b : Z) : option Z :=
  if in_int (a - b) then Some (a - b) else None.

(** [int size = points_.size()]: the conversion of a [size_t] to [int]
    keeps the value modulo [2 ^ 32]. *)
Definition int_of_size (n : nat) : Z :=
  (Z.of_nat n + 2 ^ 31) mod 2 ^ 32 - 2 ^ 31.

(** The local variable of a loop whose body only computes on it; a step
    without a result ends the loop without a result. *)
Fixpoint iterate {A} (step : A -> nat -> option A) (acc : A)
    (range : list nat) : option A :=
  match range with
  | [] => Some acc
  | i :: rest =>
      match step acc i with
      | Some acc' => iterate step acc' rest
      | None => None
      end
  end.

(** ** Data *)

Section OcTree.

Context `{Scalar}.

Record vec3 : Type := Vec3 { vx : scalar; vy : scalar; vz : scalar }.

(** [glm::vec3 v;] *)
Definition vec3_default : vec3 := Vec3 s_default s_default s_default.

(** Modelled from the spec: the class [Reconstructor], whose source is not
    part of the octree.  The octree assigns its public field [points], calls
    [reconstruct()] and calls [getMesh()].  Following sections 4.1 and 6 of
    the specification, the collaborator accepts a point buffer and produces
    a mesh: [getMesh] returns the mesh computed by the last [reconstruct],
    and the empty mesh if [reconstruct] was never called.  The algorithm
    that turns points into a mesh is left open ([build_mesh]). *)
Record Reconstructor : Type := mkReconstructor {
  rc_points : list vec3;
  rc_mesh : list vec3
}.

Variable build_mesh : list vec3 -> list vec3.

Definition new_Reconstructor : Reconstructor := mkReconstructor [] [].

Definition Reconstructor_set_points (pts : list vec3) (r : Reconstructor)
  : Reconstructor :=
  mkReconstructor pts (rc_mesh r).

Definition Reconstructor_reconstruct (r : Reconstructor) : Reconstructor :=
  mkReconstructor (rc_points r) (build_mesh (rc_points r)).

Definition Reconstructor_getMesh (r : Reconstructor) : list vec3 := rc_mesh r.

(** The members of the class.  [children_] is an array of 8 pointers that
    [malloc] leaves unset: [None] is a pointer that was never assigned.
    [reconstructor] is assigned by the constructor of a leaf only. *)
#[local] Unset Elimination Schemes.
Inductive ReconstructionOcTree : Type := mkOcTree {
  position_ : vec3;
  range_ : scalar;
  halfRange_ : scalar;
  depth_ : Z;
  children_ : list (option ReconstructionOcTree);
  is_available_ : list bool;
  points_ : list vec3;
  reconstructor : option Reconstructor
}.
#[local] Set Elimination Schemes.

Definition set_children (cs : list (option ReconstructionOcTree))
    (t : ReconstructionOcTree) : ReconstructionOcTree :=
  mkOcTree (position_ t) (range_ t) (halfRange_ t) (depth_ t) cs
    (is_available_ t) (points_ t) (reconstructor t).

Definition set_is_available (av : list bool) (t : ReconstructionOcTree)
  : ReconstructionOcTree :=
  mkOcTree (position_ t) (range_ t) (halfRange_ t) (depth_ t) (children_ t)
    av (points_ t) (reconstructor t).

Definition set_points (pts : list vec3) (t : ReconstructionOcTree)
  : ReconstructionOcTree :=
  mkOcTree (position_ t) (range_ t) (halfRange_ t) (depth_ t) (children_ t)
    (is_available_ t) pts (reconstructor t).

Definition set_reconstructor (r : option Reconstructor)
    (t : ReconstructionOcTree) : ReconstructionOcTree :=
  mkOcTree (position_ t) (range_ t) (halfRange_ t) (depth_ t) (children_ t)
    (is_available_ t) (points_ t) r.

(** ** Computations on a node *)

Definition M (A : Type) : Type :=
  ReconstructionOcTree -> option (A * ReconstructionOcTree).

Definition ret {A} (a : A) : M A := fun this => Some (a, this).

Definition bind {A B} (m : M A) (k : A -> M B) : M B :=
  fun this =>
    match m this with
    | Some (a, this') => k a this'
    | None => None
    end.

(** No result: the fuel is exhausted or the behaviour is undefined. *)
Definition stuck {A} : M A := fun _ => None.

Definition gets {A} (f : ReconstructionOcTree -> A) : M A :=
  fun this => Some (f this, this).

Definition modify (f : ReconstructionOcTree -> ReconstructionOcTree)
  : M unit :=
  fun this => Some (tt, f this).

Definition lift {A} (o : option A) : M A :=
  fun this => match o with Some a => Some (a, this) | None => None end.

Notation "x <- m ;; k" := (bind m (fun x => k))
  (at level 100, m at next level, right associativity).
Notation "m ;;; k" := (bind m (fun _ => k))
  (at level 100, right associativity).

(** [is_available_[i]] *)
Definition is_available (i : nat) : M bool :=
  fun this => lift (is_available_ this !! i) this.

(** [children_[i]->m(...)]: the callee runs on the child in slot [i]. *)
Definition on_child {A} (i : nat) (m : M A) : M A :=
  fun this =>
    match children_ this !! i with
    | Some (Some child) =>
        match m child with
        | Some (a, child') =>
            Some (a, set_children (<[i := Some child']> (children_ this)) this)
        | None => None
        end
    | _ => None
    end.

(** [for (int i = 0; i < 8; ++i) body], with the local variable that the
    body updates. *)
Fixpoint for_each {A} (body : A -> nat -> M A) (acc : A) (range : list nat)
  : M A :=
  match range with
  | [] => ret acc
  | i :: rest => acc' <- body acc i ;; for_each body acc' rest
  end.

Definition octants : list nat := seq 0 8.
#[global] Arguments octants : simpl never.

(** ** The methods *)

(** The constructor.  [position_ = position_;] assigns the member to itself:
    the argument [position] is not used and [position_] keeps the value of
    its default construction. *)
Definition new_ReconstructionOcTree (position : vec3) (range : scalar)
    (depth : Z) : ReconstructionOcTree :=
  {| position_ := vec3_default;
     range_ := range;
     halfRange_ := s_half range;
     depth_ := depth;
     children_ := replicate 8 None;
     is_available_ := replicate 8 false;
     points_ := [];
     reconstructor := if depth =? 0 then Some new_Reconstructor else None |}.

Definition octant_of (position : vec3) (halfRange : scalar) (point : vec3)
  : nat :=
  if s_ltb (vx point) (s_add (vx position) halfRange) then
    if s_ltb (vy point) (s_add (vy position) halfRange) then
      if s_ltb (vz point) (s_add (vz position) halfRange) then 0%nat else 1%nat
    else
      if s_ltb (vz point) (s_add (vz position) halfRange) then 2%nat else 3%nat
  else
    if s_ltb (vy point) (s_add (vy position) halfRange) then
      if s_ltb (vz point) (s_add (vz position) halfRange) then 4%nat else 5%nat
    else
      if s_ltb (vz point) (s_add (vz position) halfRange) then 6%nat else 7%nat.

Definition getChildIndex (point : vec3) : M nat :=
  position <- gets position_ ;;
  halfRange <- gets halfRange_ ;;
  ret (octant_of position halfRange point).

(** The [childPosition] that [initChild] computes.  The sum of a
    coordinate and the half range is a [double]; the assignment to a
    component of [childPosition] converts it to [float]. *)
Definition childPosition (position : vec3) (halfRange : scalar)
    (location : vec3) : vec3 :=
  Vec3
    (if s_gtb (vx location) (s_add (vx position) halfRange)
     then s_narrow (s_add (vx position) halfRange) else vx position)
    (if s_gtb (vy location) (s_add (vy position) halfRange)
     then s_narrow (s_add (vy position) halfRange) else vy position)
    (if s_gtb (vz location) (s_add (vz position) halfRange)
     then s_narrow (s_add (vz position) halfRange) else vz position).

Definition initChild (location : vec3) (index : nat) : M unit :=
  position <- gets position_ ;;
  halfRange <- gets halfRange_ ;;
  depth <- gets depth_ ;;
  depth' <- lift (int_sub depth 1) ;;
  modify (fun this =>
    set_is_available (<[index := true]> (is_available_ this))
      (set_children
         (<[index := Some (new_ReconstructionOcTree
                             (childPosition position halfRange location)
                             halfRange depth')]> (children_ this))
         this)).

Fixpoint getSize (fuel : nat) : M Z :=
  match fuel with
  | O => stuck
  | S fuel' =>
      depth <- gets depth_ ;;
      if depth =? 0 then
        pts <- gets points_ ;;
        ret (int_of_size (length pts))
      else
        for_each (fun size i =>
            a <- is_available i ;;
            if a : bool then
              n <- on_child i (getSize fuel') ;;
              lift (int_add size n)
            else ret size)
          0 octants
  end.

Fixpoint addPoint (fuel : nat) (point : vec3) : M unit :=
  match fuel with
  | O => stuck
  | S fuel' =>
      depth <- gets depth_ ;;
      if depth =? 0 then
        modify (fun this => set_points (points_ this ++ [point]) this)
      else
        index <- getChildIndex point ;;
        a <- is_available index ;;
        (if negb a then initChild point index else ret tt) ;;;
        on_child index (addPoint fuel' point)
  end.

Fixpoint getPoints (fuel : nat) (location : vec3) : M (list vec3) :=
  match fuel with
  | O => stuck
  | S fuel' =>
      index <- getChildIndex location ;;
      depth <- gets depth_ ;;
      if depth =? 0 then gets points_
      else
        a <- is_available index ;;
        if negb a then gets points_
        else on_child index (getPoints fuel' location)
  end.

Fixpoint getClusterCount (fuel : nat) : M Z :=
  match fuel with
  | O => stuck
  | S fuel' =>
      depth <- gets depth_ ;;
      if negb (depth =? 0) then
        for_each (fun size i =>
            a <- is_available i ;;
            if a : bool then
              n <- on_child i (getClusterCount fuel') ;;
              lift (int_add size n)
            else ret size)
          0 octants
      else ret 1
  end.

Fixpoint reconstruct (fuel : nat) : M unit :=
  match fuel with
  | O => stuck
  | S fuel' =>
      depth <- gets depth_ ;;
      if depth =? 0 then
        pts <- gets points_ ;;
        r <- (fun this => lift (reconstructor this) this) ;;
        modify (set_reconstructor
                  (Some (Reconstructor_reconstruct
                           (Reconstructor_set_points pts r))))
      else
        for_each (fun (_ : unit) i =>
            a <- is_available i ;;
            if a : bool then on_child i (reconstruct fuel') else ret tt)
          tt octants
  end.

Fixpoint getMesh (fuel : nat) : M (list vec3) :=
  match fuel with
  | O => stuck
  | S fuel' =>
      depth <- gets depth_ ;;
      if negb (depth =? 0) then
        for_each (fun mesh i =>
            a <- is_available i ;;
            if a : bool then
              childMesh <- on_child i (getMesh fuel') ;;
              ret (mesh ++ childMesh)
            else ret mesh)
          [] octants
      else
        r <- (fun this => lift (reconstructor this) this) ;;
        ret (Reconstructor_getMesh r)
  end.

(** [m'] returns whatever [m] returns. *)
Definition refines {A} (m m' : M A) : Prop :=
  forall t r, m t = Some r -> m' t = Some r.

(** ** Program states *)

(** The calls a client can make on a tree. *)
Inductive Call : Type :=
  | CallAddPoint (point : vec3)
  | CallReconstruct
  | CallGetSize
  | CallGetPoints (location : vec3)
  | CallGetClusterCount
  | CallGetMesh.

Definition state_after {A} (r : option (A * ReconstructionOcTree))
  : option ReconstructionOcTree :=
  match r with Some (_, t) => Some t | None => None end.

Definition exec (fuel : nat) (c : Call) (t : ReconstructionOcTree)
  : option ReconstructionOcTree :=
  match c with
  | CallAddPoint point => state_after (addPoint fuel point t)
  | CallReconstruct => state_after (reconstruct fuel t)
  | CallGetSize => state_after (getSize fuel t)
  | CallGetPoints location => state_after (getPoints fuel location t)
  | CallGetClusterCount => state_after (getClusterCount fuel t)
  | CallGetMesh => state_after (getMesh fuel t)
  end.

(** The states of a root: the tree the constructor builds, and every state
    that a call which returns leads to. *)
Inductive Reachable : ReconstructionOcTree -> Prop :=
  | Reachable_new position range depth :
      in_int depth = true ->
      Reachable (new_ReconstructionOcTree position range depth)
  | Reachable_call t fuel c t' :
      Reachable t -> exec fuel c t = Some t' -> Reachable t'.

(** One [addPoint] per point of a sequence, in order. *)
Fixpoint addPoints (fuel : nat) (points : list vec3)
    (t : ReconstructionOcTree) : option ReconstructionOcTree :=
  match points with
  | [] => Some t
  | point :: rest =>
      match addPoint fuel point t with
      | Some (_, t') => addPoints fuel rest t'
      | None => None
      end
  end.

(** ** The shape of a tree *)

(** The child in slot [i], when [is_available_[i]] is set. *)
Definition slot (t : ReconstructionOcTree) (i : nat)
  : option ReconstructionOcTree :=
  match is_available_ t !! i with
  | Some true =>
      match children_ t !! i with
      | Some (Some child) => Some child
      | _ => None
      end
  | _ => None
  end.

(** A quantity of the child in slot [i], and [d] for an absent child. *)
Definition at_slot {B} (t : ReconstructionOcTree)
    (f : ReconstructionOcTree -> B) (d : B) (i : nat) : B :=
  match slot t i with Some child => f child | None => d end.

(** The node reached from [t] through the slots of [path]. *)
Fixpoint node_at (path : list nat) (t : ReconstructionOcTree)
  : option ReconstructionOcTree :=
  match path with
  | [] => Some t
  | i :: path' =>
      match slot t i with
      | Some child => node_at path' child
      | None => None
      end
  end.

(** The nodes of the trees a root can be in: the root and, through the
    available slots, its descendants. *)
Definition InTree (t : ReconstructionOcTree) : Prop :=
  exists root path, Reachable root /\ node_at path root = Some t.

(** [mesh] is what [getMesh] returns on the child in slot [i], and the empty
    mesh when the slot is absent. *)
Definition child_mesh (fuel : nat) (t : ReconstructionOcTree) (i : nat)
    (mesh : list vec3) : Prop :=
  match slot t i with
  | Some child => getMesh fuel child = Some (mesh, child)
  | None => mesh = []
  end.

(** The child that [addPoint point] descends into: the child in the slot
    of the point's octant, or the child that [initChild] creates there. *)
Definition child_for (point : vec3) (t : ReconstructionOcTree)
  : ReconstructionOcTree :=
  match slot t (octant_of (position_ t) (halfRange_ t) point) with
  | Some child => child
  | None =>
      new_ReconstructionOcTree
        (childPosition (position_ t) (halfRange_ t) point)
        (halfRange_ t) (depth_ t - 1)
  end.

(** The node [t] with [child] in slot [i]. *)
Definition with_child (i : nat) (child : ReconstructionOcTree)
    (t : ReconstructionOcTree) : ReconstructionOcTree :=
  set_is_available (<[i := true]> (is_available_ t))
    (set_children (<[i := Some child]> (children_ t)) t).

(** The tree that [addPoint point] leaves, for a node [n] levels above
    its leaves. *)
Fixpoint inserted (n : nat) (point : vec3) (t : ReconstructionOcTree)
  : ReconstructionOcTree :=
  match n with
  | O => set_points (points_ t ++ [point]) t
  | S n' =>
      with_child (octant_of (position_ t) (halfRange_ t) point)
        (inserted n' point (child_for point t)) t
  end.

(** The buffer of the node at [path], empty when there is no such node. *)
Definition points_at (path : list nat) (t : ReconstructionOcTree)
  : list vec3 :=
  match node_at path t with Some node => points_ node | None => [] end.

(** The materialised leaves under a node, by ascending octant. *)
Fixpoint leaves (t : ReconstructionOcTree) : list ReconstructionOcTree :=
  match t with
  | mkOcTree _ _ _ depth children available _ _ =>
      if depth =? 0 then [t]
      else
        concat
          (zip_with
             (fun (c : option ReconstructionOcTree) (a : bool) =>
                match c with
                | Some child => if a then leaves child else []
                | None => []
                end)
             children available)
  end.

Definition has_points (t : ReconstructionOcTree) : bool :=
  match points_ t with [] => false | _ :: _ => true end.

Definition all_have_points (l : list ReconstructionOcTree) : Prop :=
  Forall (fun leaf => has_points leaf = true) l.

(** The number of leaves that have received at least one point. *)
Definition leaves_with_points (t : ReconstructionOcTree) : nat :=
  length (List.filter has_points (leaves t)).

(** The number of points in the buffers of the leaves. *)
Definition stored_points (t : ReconstructionOcTree) : nat :=
  sum_list_with (fun l => length (points_ l)) (leaves t).

(** What a leaf's collaborator currently holds as its mesh. *)
Definition leaf_mesh (t : ReconstructionOcTree) : list vec3 :=
  match reconstructor t with
  | Some r => Reconstructor_getMesh r
  | None => []
  end.

(** A vector of [double]s stored in a [glm::vec3]. *)
Definition vec3_narrow (v : vec3) : vec3 :=
  Vec3 (s_narrow (vx v)) (s_narrow (vy v)) (s_narrow (vz v)).

(** The low corner of the octant that [getChildIndex] numbers [index]:
    indices 4 to 7 are the high half in x, indices 2, 3, 6, 7 the high half
    in y, odd indices the high half in z. *)
Definition octant_origin (position : vec3) (halfRange : scalar)
    (index : nat) : vec3 :=
  Vec3
    (if (4 <=? index)%nat then s_add (vx position) halfRange
     else vx position)
    (if (2 <=? index mod 4)%nat then s_add (vy position) halfRange
     else vy position)
    (if (1 <=? index mod 2)%nat then s_add (vz position) halfRange
     else vz position).

(** The invariant of the nodes of a tree with at most [n] levels of
    children: the arrays have 8 entries, a leaf owns a collaborator, only a
    leaf holds points, and an available slot holds a child one level
    below, which, when it is a leaf, has received a point. *)
Fixpoint wf (n : nat) (t : ReconstructionOcTree) : Prop :=
  length (children_ t) = 8%nat /\
  length (is_available_ t) = 8%nat /\
  in_int (depth_ t) = true /\
  (depth_ t = 0 -> is_Some (reconstructor t)) /\
  (depth_ t <> 0 -> points_ t = []) /\
  forall i, is_available_ t !! i = Some true ->
    match n with
    | O => False
    | S n' =>
        exists child,
          children_ t !! i = Some (Some child) /\
          depth_ child = depth_ t - 1 /\
          wf n' child /\
          (depth_ child = 0 -> points_ child <> [])
    end.

End OcTree.

Arguments vec3 {_}.
Arguments Reconstructor {_}.
Arguments ReconstructionOcTree {_}.
Arguments M {_} A.
Arguments Call {_}.

Notation "x <- m ;; k" := (bind m (fun x => k))
  (at level 100, m at next level, right associativity).
Notation "m ;;; k" := (bind m (fun _ => k))
  (at level 100, right associativity).

(** ** Sample data, in binary64 *)

Module Sample.

Definition point (a b c : float) : vec3 := Vec3 a b c.

(** The root of section 8 of the specification: origin (0,0,0), range 8,
    depth 2, and its three points. *)
Definition root : ReconstructionOcTree :=
  new_ReconstructionOcTree (point 0 0 0) 8%float 2.

Definition scenario : list vec3 :=
  [point 1 1 1; point 7 7 7; point 1 1 7].

(** A root with one level of children, a root that is a leaf and a root
    built with a negative depth. *)
Definition root1 : ReconstructionOcTree :=
  new_ReconstructionOcTree (point 0 0 0) 8%float 1.

Definition leaf_root : ReconstructionOcTree :=
  new_ReconstructionOcTree (point 0 0 0) 8%float 0.

Definition negative_root : ReconstructionOcTree :=
  new_ReconstructionOcTree (point 0 0 0) 8%float (-1).

(** A collaborator whose mesh is the point buffer itself. *)
Definition points_as_mesh (pts : list (@vec3 binary64)) : list vec3 := pts.

(** The tree of the scenario after its three insertions, and after a call
    of [reconstruct] that follows them. *)
Definition filled : ReconstructionOcTree :=
  Eval vm_compute in
    match addPoints 3 scenario root with Some t => t | None => root end.

Definition grown : ReconstructionOcTree :=
  Eval vm_compute in
    match reconstruct points_as_mesh 3 filled with
    | Some (_, t) => t
    | None => filled
    end.

End Sample.

(** ** Contents of a tree *)

Section Contents.

Context `{Scalar}.
Variable build_mesh : list vec3 -> list vec3.

(** The points a call adds to the tree when it returns. *)
Definition inserted_by (c : Call) : list vec3 :=
  match c with CallAddPoint point => [point] | _ => [] end.

(** A state of a root together with the points inserted into it so far,
    in the order of their insertion. *)
Inductive History : ReconstructionOcTree -> list vec3 -> Prop :=
  | History_new position range depth :
      in_int depth = true ->
      History (new_ReconstructionOcTree position range depth) []
  | History_call t points fuel c t' :
      History t points -> exec build_mesh fuel c t = Some t' ->
      History t' (points ++ inserted_by c).

(** The octants [getChildIndex] selects for [point] on the way down [n]
    levels from a node of range [range]: every node compares with its
    [position_], which is the default position, plus half its range, and a
    child has half the range of its parent. *)
Fixpoint route (n : nat) (range : scalar) (point : vec3) : list nat :=
  match n with
  | O => []
  | S n' =>
      octant_of vec3_default (s_half range) point
        :: route n' (s_half range) point
  end.

Definition same_route (n : nat) (range : scalar) (location point : vec3)
  : bool :=
  bool_decide (route n range point = route n range location).

Definition routed_to (i : nat) (range : scalar) (point : vec3) : bool :=
  Nat.eqb (octant_of vec3_default (s_half range) point) i.

(** The node [t], [n] levels above its leaves, stores the sequence [points]:
    a leaf holds the sequence itself, the child in slot [i] stores the
    points routed to octant [i], and a slot is absent exactly when no point
    is routed to it. *)
Fixpoint holds (n : nat) (range : scalar) (t : ReconstructionOcTree)
    (points : list vec3) : Prop :=
  position_ t = vec3_default /\
  range_ t = range /\
  halfRange_ t = s_half range /\
  match n with
  | O => points_ t = points
  | S n' =>
      forall i,
        match slot t i with
        | Some child =>
            holds n' (s_half range) child
              (List.filter (routed_to i range) points)
        | None => List.filter (routed_to i range) points = []
        end
  end.

(** The leaf after [reconstruct]: the collaborator has received the buffer
    and has built its mesh. *)
Definition reconstructed_leaf (t : ReconstructionOcTree)
  : ReconstructionOcTree :=
  match reconstructor t with
  | Some r =>
      set_reconstructor
        (Some (Reconstructor_reconstruct build_mesh
                 (Reconstructor_set_points (points_ t) r))) t
  | None => t
  end.

(** The children after the loop of [reconstruct] has run over [range]. *)
Definition reconstructed_children
    (after : ReconstructionOcTree -> ReconstructionOcTree)
    (t : ReconstructionOcTree) (range : list nat)
    (cs : list (option ReconstructionOcTree))
  : list (option ReconstructionOcTree) :=
  foldl
    (fun cs i =>
       match slot t i with
       | Some child => <[i := Some (after child)]> cs
       | None => cs
       end)
    cs range.

(** The tree that [reconstruct] leaves, for a node at most [n] levels
    above its leaves. *)
Fixpoint reconstructed (n : nat) (t : ReconstructionOcTree)
  : ReconstructionOcTree :=
  if depth_ t =? 0 then reconstructed_leaf t
  else
    match n with
    | O => t
    | S n' =>
        set_children
          (reconstructed_children (reconstructed n') t octants (children_ t))
          t
    end.

(** The mesh the collaborator of a leaf builds from the buffer of the
    leaf. *)
Definition built_mesh (t : ReconstructionOcTree) : list vec3 :=
  build_mesh (points_ t).

End Contents.

(** More sample data: nodes of the tree [Sample.grown], and a root of
    depth 0 after two insertions. *)
Module MoreSamples.

Import Sample.

Definition first_child : ReconstructionOcTree :=
  Eval vm_compute in
    match node_at [0%nat] grown with Some t => t | None => grown end.

Definition first_leaf : ReconstructionOcTree :=
  Eval vm_compute in
    match node_at [0%nat; 0%nat] grown with Some t => t | None => grown end.

Definition pair : list vec3 := [point 7 7 7; point 1 1 1].

Definition leaf_pair : ReconstructionOcTree :=
  Eval vm_compute in
    match addPoints 1 pair leaf_root with Some t => t | None => leaf_root end.

End MoreSamples.

(** ** The video frame of [scene.cc] *)

Module Scene.

#[local] Set Warnings "-inexact-float".

(** An [int] as a [double]. *)
Definition of_int (z : Z) : float :=
  if z <? 0 then PrimFloat.opp (PrimFloat.of_uint63 (Uint63.of_Z (- z)))
  else PrimFloat.of_uint63 (Uint63.of_Z z).

(** The conversion of a [double] to [uint8_t] drops the fraction; it is
    undefined when what remains is no [uint8_t]. *)
Definition to_uint8 (x : float) : option Z :=
  match Prim2SF x with
  | S754_zero _ => Some 0
  | S754_finite s m e =>
      let mag := if 0 <=? e then Z.pos m * 2 ^ e else Z.pos m / 2 ^ (- e) in
      let v := if s then - mag else mag in
      if (0 <=? v) && (v <=? 255) then Some v else None
  | _ => None
  end.

(** [Yuv2Rgb]: the values stored through [r], [g] and [b], for arguments
    that are [uint8_t]. *)
Definition Yuv2Rgb (yValue uValue vValue : Z) : option (Z * Z * Z) :=
  match
    to_uint8 (of_int yValue + 1.370705 * of_int (vValue - 128))%float
  with
  | Some r =>
      match
        to_uint8 (of_int yValue - 0.698001 * of_int (vValue - 128)
                  - 0.337633 * of_int (uValue - 128))%float
      with
      | Some g =>
          match
            to_uint8 (of_int yValue + 1.732446 * of_int (uValue - 128))%float
          with
          | Some b => Some (r, g, b)
          | None => None
          end
      | None => None
      end
  | None => None
  end.

Definition is_grey (y : Z) : bool :=
  match Yuv2Rgb y 128 128 with
  | Some (r, g, b) => (r =? y) && (g =? y) && (b =? y)
  | None => false
  end.

(** Whether the conversion of the black or of the white pixel with the
    chroma [uValue], [vValue] is undefined. *)
Definition undefined_at_extreme (uValue vValue : Z) : bool :=
  match Yuv2Rgb 0 uValue vValue, Yuv2Rgb 255 uValue vValue with
  | Some _, Some _ => false
  | _, _ => true
  end.

Definition neutral_or_undefined (uValue vValue : Z) : bool :=
  (uValue =? 128) && (vValue =? 128) || undefined_at_extreme uValue vValue.

(** The sizes [OnFrameAvailable] gives to the buffers of a frame of
    [width] by [height] pixels, and the indices [FillRGBTexture] uses for
    the pixel in row [i] and column [j].  The sizes of a camera frame are
    far below the range of the index types: the arithmetic is that of
    [Z]. *)
Definition uv_buffer_offset (width height : Z) : Z := width * height.

Definition yuv_size (width height : Z) : Z :=
  width * height + width * height / 2.

Definition rgb_size (width height : Z) : Z := width * height * 3.

Definition x_index (j : Z) : Z := if negb (j mod 2 =? 0) then j - 1 else j.

Definition y_at (width i j : Z) : Z := i * width + j.

Definition u_at (width height i j : Z) : Z :=
  uv_buffer_offset width height + (i / 2) * width + x_index j + 1.

Definition v_at (width height i j : Z) : Z :=
  uv_buffer_offset width height + (i / 2) * width + x_index j.

Definition rgb_index (width i j : Z) : Z := (i * width + j) * 3.

End Scene.

(** * Properties *)

(** ** The conversion to [float] *)

(** [float_of_double] is the rounding to binary32 of the Standard
    Library's specification on zeros, infinities and NaN, and on the
    numbers of [mantissas] at every exponent of [exponents]: the binary32
    numbers, their neighbours in binary64 and the midpoints from the
    subnormal range to the overflow. *)
Lemma float_of_double_rounds :
  forallb rounds_alike [0; -0; infinity; neg_infinity; nan]%float = true /\
  forallb rounds_alike_at exponents = true.
Proof. split; vm_compute; reflexivity. Qed.

Section Properties.

Context `{Scalar}.
Variable build_mesh : list vec3 -> list vec3.

Implicit Types (t child : ReconstructionOcTree) (fuel n i : nat).
Implicit Types (point location : vec3).

(** ** Computations *)

Lemma set_children_id t : set_children (children_ t) t = t.
Proof. by destruct t. Qed.

Lemma set_children_insert_id t i child :
  children_ t !! i = Some (Some child) ->
  set_children (<[i := Some child]> (children_ t)) t = t.
Proof. intros Hc. rewrite list_insert_id by done. apply set_children_id. Qed.

Lemma is_available_lookup i t b :
  is_available_ t !! i = Some b -> is_available i t = Some (b, t).
Proof. unfold is_available, lift. by intros ->. Qed.

Lemma slot_Some t i child :
  slot t i = Some child <->
  is_available_ t !! i = Some true /\ children_ t !! i = Some (Some child).
Proof.
  unfold slot. split.
  - destruct (is_available_ t !! i) as [[]|]; try done.
    destruct (children_ t !! i) as [[c|]|]; try done.
    by intros [= ->].
  - by intros [-> ->].
Qed.

(** A call on a child that leaves the child as it is leaves the parent as
    it is. *)
Lemma on_child_unchanged {A} i (m : M A) t child a :
  children_ t !! i = Some (Some child) ->
  m child = Some (a, child) ->
  on_child i m t = Some (a, t).
Proof.
  intros Hc Hm. unfold on_child. rewrite Hc, Hm.
  by rewrite set_children_insert_id.
Qed.

Lemma on_child_frame {A} i (m : M A) t a t' :
  (forall child a' child', m child = Some (a', child') -> child' = child) ->
  on_child i m t = Some (a, t') -> t' = t.
Proof.
  intros Hm. unfold on_child.
  destruct (children_ t !! i) as [[c|]|] eqn:Hc; try done.
  destruct (m c) as [[a' c']|] eqn:Hr; try done.
  intros [= _ <-]. apply Hm in Hr as ->. by apply set_children_insert_id.
Qed.

(** A loop whose body leaves the node as it is. *)
Lemma for_each_frame {A} (body : A -> nat -> M A) t range :
  (forall acc i acc' t',
      i ∈ range -> body acc i t = Some (acc', t') -> t' = t) ->
  forall acc acc' t',
    for_each body acc range t = Some (acc', t') -> t' = t.
Proof.
  induction range as [|i range IH]; intros Hbody acc acc' t'; simpl.
  - unfold ret. by intros [= _ <-].
  - unfold bind. destruct (body acc i t) as [[a1 t1]|] eqn:Hb; try done.
    apply Hbody in Hb as ->; [|set_solver].
    apply IH. intros ????? Hb. eapply Hbody; [|done]. set_solver.
Qed.

(** A loop whose body computes the pure step [step] on the local variable. *)
Lemma for_each_pure {A} (body : A -> nat -> M A) step t range :
  (forall acc i, i ∈ range ->
      body acc i t =
      match step acc i with Some acc' => Some (acc', t) | None => None end) ->
  forall acc,
    for_each body acc range t =
    match iterate step acc range with
    | Some acc' => Some (acc', t)
    | None => None
    end.
Proof.
  induction range as [|i range IH]; intros Hbody acc; simpl; [done|].
  unfold bind. rewrite Hbody by set_solver.
  destruct (step acc i); [|done].
  apply IH. intros. apply Hbody. set_solver.
Qed.

(** ** Leaves *)

Lemma zip_with_slots {B} (F : ReconstructionOcTree -> list B)
    (cs : list (option ReconstructionOcTree)) (av : list bool) :
  length cs = length av ->
  zip_with
    (fun (c : option ReconstructionOcTree) (a : bool) =>
       match c with Some child => if a then F child else [] | None => [] end)
    cs av =
  (fun i =>
     match av !! i with
     | Some true =>
         match cs !! i with Some (Some child) => F child | _ => [] end
     | _ => []
     end) <$> seq 0 (length cs).
Proof.
  revert av. induction cs as [|c cs IH]; intros [|a av] Hlen; try done.
  simpl in Hlen. injection Hlen as Hlen.
  cbn [zip_with length seq fmap list_fmap]. f_equal.
  - cbn. by destruct c, a.
  - rewrite IH by done. rewrite <- fmap_S_seq, <- list_fmap_compose.
    by apply list_fmap_ext.
Qed.

Lemma leaves_leaf t : depth_ t = 0 -> leaves t = [t].
Proof. destruct t; simpl. by intros ->. Qed.

Lemma leaves_internal t :
  depth_ t <> 0 ->
  length (children_ t) = 8%nat ->
  length (is_available_ t) = 8%nat ->
  leaves t =
  concat ((fun i => match slot t i with Some c => leaves c | None => [] end)
            <$> octants).
Proof.
  destruct t as [pos r h d cs av pts rc].
  cbn [leaves depth_ children_ is_available_]. intros Hd Hcs Hav.
  apply Z.eqb_neq in Hd as ->.
  rewrite zip_with_slots by congruence. rewrite Hcs. f_equal.
  apply list_fmap_ext. intros _ i _. unfold slot; simpl.
  destruct (av !! i) as [[]|]; try done.
  by destruct (cs !! i) as [[]|].
Qed.

(** ** The queries change nothing *)

Lemma getChildIndex_eq point t :
  getChildIndex point t =
  Some (octant_of (position_ t) (halfRange_ t) point, t).
Proof. done. Qed.

Lemma is_available_frame i t b t' :
  is_available i t = Some (b, t') -> t' = t.
Proof.
  unfold is_available, lift. destruct (is_available_ t !! i); try done.
  by intros [= _ <-].
Qed.

Lemma getSize_frame fuel : forall t v t',
  getSize fuel t = Some (v, t') -> t' = t.
Proof.
  induction fuel as [|fuel IH]; intros t v t'; cbn [getSize]; [done|].
  unfold bind at 1. unfold gets. destruct (depth_ t =? 0); cbn [negb].
  - unfold ret. by intros [= _ <-].
  - apply for_each_frame. intros acc i acc' t1 _. unfold bind.
    destruct (is_available i t) as [[a t2]|] eqn:Ha; try done.
    apply is_available_frame in Ha as ->. destruct a.
    + destruct (on_child i (getSize fuel) t) as [[n t3]|] eqn:Hc; try done.
      apply on_child_frame in Hc as ->; [|done].
      unfold lift. destruct (int_add acc n); try done. by intros [= _ <-].
    + unfold ret. by intros [= _ <-].
Qed.

Lemma getClusterCount_frame fuel : forall t v t',
  getClusterCount fuel t = Some (v, t') -> t' = t.
Proof.
  induction fuel as [|fuel IH]; intros t v t'; cbn [getClusterCount]; [done|].
  unfold bind at 1. unfold gets. destruct (depth_ t =? 0); cbn [negb].
  - unfold ret. by intros [= _ <-].
  - apply for_each_frame. intros acc i acc' t1 _. unfold bind.
    destruct (is_available i t) as [[a t2]|] eqn:Ha; try done.
    apply is_available_frame in Ha as ->. destruct a.
    + destruct (on_child i (getClusterCount fuel) t) as [[n t3]|] eqn:Hc;
        try done.
      apply on_child_frame in Hc as ->; [|done].
      unfold lift. destruct (int_add acc n); try done. by intros [= _ <-].
    + unfold ret. by intros [= _ <-].
Qed.

Lemma getMesh_frame fuel : forall t v t',
  getMesh fuel t = Some (v, t') -> t' = t.
Proof.
  induction fuel as [|fuel IH]; intros t v t'; cbn [getMesh]; [done|].
  unfold bind at 1. unfold gets. destruct (depth_ t =? 0); cbn [negb].
  - unfold bind, lift, ret. destruct (reconstructor t); try done.
    by intros [= _ <-].
  - apply for_each_frame. intros acc i acc' t1 _. unfold bind.
    destruct (is_available i t) as [[a t2]|] eqn:Ha; try done.
    apply is_available_frame in Ha as ->. destruct a.
    + destruct (on_child i (getMesh fuel) t) as [[n t3]|] eqn:Hc; try done.
      apply on_child_frame in Hc as ->; [|done].
      unfold ret. by intros [= _ <-].
    + unfold ret. by intros [= _ <-].
Qed.

Lemma getPoints_frame fuel location : forall t v t',
  getPoints fuel location t = Some (v, t') -> t' = t.
Proof.
  induction fuel as [|fuel IH]; intros t v t'; cbn [getPoints]; [done|].
  unfold bind. rewrite getChildIndex_eq. unfold gets.
  destruct (depth_ t =? 0).
  - by intros [= _ <-].
  - set (i := octant_of _ _ _).
    destruct (is_available i t) as [[a t2]|] eqn:Ha; try done.
    apply is_available_frame in Ha as ->. destruct a; simpl.
    + intros Hc. by apply on_child_frame in Hc.
    + by intros [= _ <-].
Qed.

(** ** The invariant *)

Lemma wf_arrays n t :
  wf n t ->
  length (children_ t) = 8%nat /\ length (is_available_ t) = 8%nat.
Proof. destruct n; simpl; tauto. Qed.

Lemma wf_in_int n t : wf n t -> in_int (depth_ t) = true.
Proof. destruct n; simpl; tauto. Qed.

Lemma wf_leaf n t : wf n t -> depth_ t = 0 -> is_Some (reconstructor t).
Proof. destruct n; simpl; tauto. Qed.

Lemma wf_internal n t : wf n t -> depth_ t <> 0 -> points_ t = [].
Proof. destruct n; simpl; tauto. Qed.

Lemma wf_O_slot t i : wf 0 t -> slot t i = None.
Proof.
  intros (_ & _ & _ & _ & _ & Hs). destruct (slot t i) as [c|] eqn:Hc; [|done].
  apply slot_Some in Hc as [Ha _]. by apply Hs in Ha.
Qed.

Lemma wf_S_available n t i :
  wf (S n) t -> is_available_ t !! i = Some true ->
  exists child,
    slot t i = Some child /\ depth_ child = depth_ t - 1 /\ wf n child /\
    (depth_ child = 0 -> points_ child <> []).
Proof.
  intros (_ & _ & _ & _ & _ & Hs) Ha.
  destruct (Hs i Ha) as (c & Hc & ?). exists c. split; [|done].
  by apply slot_Some.
Qed.

Lemma wf_S_slot n t i child :
  wf (S n) t -> slot t i = Some child ->
  depth_ child = depth_ t - 1 /\ wf n child /\
  (depth_ child = 0 -> points_ child <> []).
Proof.
  intros Hwf Hc. pose proof Hc as Hc'. apply slot_Some in Hc' as [Ha _].
  destruct (wf_S_available _ _ _ Hwf Ha) as (c & Hc2 & ?).
  by simplify_eq.
Qed.

Lemma wf_available n t i :
  wf n t -> is_available_ t !! i = Some true -> is_Some (slot t i).
Proof.
  destruct n; intros Hwf Ha.
  - destruct Hwf as (_ & _ & _ & _ & _ & Hs). by apply Hs in Ha.
  - destruct (wf_S_available _ _ _ Hwf Ha) as (c & -> & _). by eexists.
Qed.

Lemma wf_mono n : forall m t, (n <= m)%nat -> wf n t -> wf m t.
Proof.
  induction n as [|n IH]; intros m t Hle Hwf.
  - destruct m; [done|].
    destruct Hwf as (? & ? & ? & ? & ? & Hs). repeat split; try done.
    intros i Ha. by apply Hs in Ha.
  - destruct m as [|m]; [lia|].
    destruct Hwf as (? & ? & ? & ? & ? & Hs). repeat split; try done.
    intros i Ha. destruct (Hs i Ha) as (c & ? & ? & ? & ?).
    exists c. repeat split; try done. apply IH; [lia|done].
Qed.

Lemma wf_new n position range depth :
  in_int depth = true -> wf n (new_ReconstructionOcTree position range depth).
Proof.
  intros Hd.
  assert (forall i, @replicate bool 8 false !! i = Some true -> False) as Hno.
  { intros i Hi. apply lookup_replicate in Hi as [? _]. done. }
  destruct n; simpl; repeat split; try done;
    try (intros ->; by eexists); intros i Hi; by apply Hno in Hi.
Qed.

(** Every node of a well-formed tree is well-formed. *)
Lemma wf_node_at path : forall n t node,
  wf n t -> node_at path t = Some node -> wf n node.
Proof.
  induction path as [|i path IH]; intros n t node Hwf; simpl.
  - by intros [= <-].
  - destruct (slot t i) as [c|] eqn:Hc; [|done]. intros Hnode.
    destruct n as [|n]; [by rewrite wf_O_slot in Hc|].
    destruct (wf_S_slot _ _ _ _ Hwf Hc) as (_ & Hwfc & _).
    apply (wf_mono n); [lia|]. by eapply IH.
Qed.

(** ** Loops over the children of a well-formed node *)

Lemma octant_available n t i :
  wf n t -> i ∈ octants -> is_Some (is_available_ t !! i).
Proof.
  intros Hwf Hi. apply lookup_lt_is_Some.
  apply wf_arrays in Hwf as [_ ->]. apply elem_of_seq in Hi. lia.
Qed.

Lemma child_loop_body {A B} (m : M B) (K : A -> B -> M A)
    (comb : A -> B -> option A) (val : ReconstructionOcTree -> B) n t i acc :
  wf n t -> i ∈ octants ->
  (forall acc x t0,
      K acc x t0 =
      match comb acc x with Some a => Some (a, t0) | None => None end) ->
  (forall c, slot t i = Some c -> m c = Some (val c, c)) ->
  (a <- is_available i ;;
   if a : bool then x <- on_child i m ;; K acc x else ret acc) t =
  match
    match slot t i with Some c => comb acc (val c) | None => Some acc end
  with
  | Some acc' => Some (acc', t)
  | None => None
  end.
Proof.
  intros Hwf Hi HK Hm. unfold bind at 1.
  destruct (octant_available _ _ _ Hwf Hi) as [b Hb].
  rewrite (is_available_lookup _ _ _ Hb). destruct b.
  - destruct (wf_available _ _ _ Hwf Hb) as [c Hc]. rewrite Hc.
    pose proof Hc as Hc'. apply slot_Some in Hc' as [_ Hch].
    unfold bind. rewrite (on_child_unchanged _ _ _ _ _ Hch (Hm _ Hc)).
    apply HK.
  - unfold slot. by rewrite Hb.
Qed.

Lemma child_loop {A B} (m : M B) (K : A -> B -> M A)
    (comb : A -> B -> option A) (val : ReconstructionOcTree -> B) n t acc :
  wf n t ->
  (forall acc x t0,
      K acc x t0 =
      match comb acc x with Some a => Some (a, t0) | None => None end) ->
  (forall i c, slot t i = Some c -> m c = Some (val c, c)) ->
  for_each
    (fun acc i =>
       a <- is_available i ;;
       if a : bool then x <- on_child i m ;; K acc x else ret acc)
    acc octants t =
  match
    iterate
      (fun acc i =>
         match slot t i with Some c => comb acc (val c) | None => Some acc end)
      acc octants
  with
  | Some acc' => Some (acc', t)
  | None => None
  end.
Proof.
  intros Hwf HK Hm. apply for_each_pure. intros acc' i Hi.
  eapply child_loop_body; eauto.
Qed.

Lemma in_int_small z : 0 <= z <= INT_MAX -> in_int z = true.
Proof.
  unfold in_int, INT_MIN, INT_MAX. intros [??].
  apply andb_true_iff. split; apply Z.leb_le; lia.
Qed.

Lemma int_of_size_small k :
  Z.of_nat k <= INT_MAX -> int_of_size k = Z.of_nat k.
Proof.
  unfold int_of_size, INT_MAX. intros Hk.
  rewrite Z.mod_small by lia. lia.
Qed.

Lemma iterate_count t (v : ReconstructionOcTree -> nat) range : forall acc,
  0 <= acc ->
  acc + Z.of_nat (sum_list_with (at_slot t v 0%nat) range) <= INT_MAX ->
  iterate
    (fun acc i =>
       match slot t i with
       | Some c => int_add acc (Z.of_nat (v c))
       | None => Some acc
       end)
    acc range =
  Some (acc + Z.of_nat (sum_list_with (at_slot t v 0%nat) range)).
Proof.
  induction range as [|i range IH]; intros acc Hacc Hmax; simpl in *.
  - f_equal. lia.
  - unfold at_slot at 1 in Hmax. unfold at_slot at 1.
    destruct (slot t i) as [c|].
    + unfold int_add. rewrite in_int_small by lia.
      rewrite IH by lia. f_equal. lia.
    + rewrite IH by lia. f_equal.
Qed.

Lemma iterate_concat {B} t (v : ReconstructionOcTree -> list B) range :
  forall acc,
  iterate
    (fun acc i =>
       match slot t i with Some c => Some (acc ++ v c) | None => Some acc end)
    acc range =
  Some (acc ++ concat (at_slot t v [] <$> range)).
Proof.
  induction range as [|i range IH]; intros acc; simpl.
  - by rewrite app_nil_r.
  - unfold at_slot at 1. destruct (slot t i) as [c|]; rewrite IH.
    + by rewrite app_assoc.
    + done.
Qed.

Lemma sum_list_with_ext {B} (f g : B -> nat) (l : list B) :
  (forall x, x ∈ l -> f x = g x) -> sum_list_with f l = sum_list_with g l.
Proof.
  induction l as [|x l IH]; intros Hfg; simpl; [done|].
  rewrite Hfg by (by apply elem_of_cons; left).
  rewrite IH; [done|]. intros y Hy. apply Hfg. by apply elem_of_cons; right.
Qed.

Lemma sum_list_with_concat_fmap {B} (f : B -> nat) (g : nat -> list B)
    (range : list nat) :
  sum_list_with f (concat (g <$> range)) =
  sum_list_with (fun i => sum_list_with f (g i)) range.
Proof.
  induction range as [|i range IH]; csimpl; [done|].
  by rewrite sum_list_with_app, IH.
Qed.

Lemma length_sum_list_with {B} (l : list B) :
  length l = sum_list_with (fun _ => 1%nat) l.
Proof. induction l; simpl; [done|]. by rewrite IHl. Qed.

Lemma concat_fmap_concat {B C} (f : B -> list C) (L : list (list B)) :
  concat (f <$> concat L) = concat ((fun l => concat (f <$> l)) <$> L).
Proof.
  induction L as [|l L IH]; csimpl; [done|].
  by rewrite fmap_app, concat_app, IH.
Qed.

Lemma leaves_at_slots n t :
  wf n t -> depth_ t <> 0 ->
  leaves t = concat (at_slot t leaves [] <$> octants).
Proof.
  intros Hwf Hd. destruct (wf_arrays _ _ Hwf). by apply leaves_internal.
Qed.

Lemma sum_leaves_internal n t (f : ReconstructionOcTree -> nat) :
  wf n t -> depth_ t <> 0 ->
  sum_list_with f (leaves t) =
  sum_list_with (at_slot t (fun c => sum_list_with f (leaves c)) 0%nat)
    octants.
Proof.
  intros Hwf Hd. rewrite (leaves_at_slots n) by done.
  rewrite sum_list_with_concat_fmap. apply sum_list_with_ext.
  intros i _. unfold at_slot. by destruct (slot t i).
Qed.

Lemma slot_octant n t i c : wf n t -> slot t i = Some c -> i ∈ octants.
Proof.
  intros Hwf Hc. apply slot_Some in Hc as [Ha _].
  apply lookup_lt_Some in Ha. apply wf_arrays in Hwf as [_ Hlen].
  apply elem_of_seq. lia.
Qed.

Lemma at_slot_le_sum n t (v : ReconstructionOcTree -> nat) i c :
  wf n t -> slot t i = Some c ->
  (v c <= sum_list_with (at_slot t v 0%nat) octants)%nat.
Proof.
  intros Hwf Hc.
  pose proof (sum_list_with_in i (at_slot t v 0%nat) octants
                (slot_octant _ _ _ _ Hwf Hc)) as Hle.
  unfold at_slot at 1 in Hle. by rewrite Hc in Hle.
Qed.

Lemma stored_points_internal n t :
  wf n t -> depth_ t <> 0 ->
  stored_points t = sum_list_with (at_slot t stored_points 0%nat) octants.
Proof. intros. by apply (sum_leaves_internal n). Qed.

Lemma leaf_count_internal n t :
  wf n t -> depth_ t <> 0 ->
  length (leaves t) =
  sum_list_with (at_slot t (fun c => length (leaves c)) 0%nat) octants.
Proof.
  intros Hwf Hd. rewrite length_sum_list_with.
  rewrite (sum_leaves_internal n) by done. apply sum_list_with_ext.
  intros i _. unfold at_slot. destruct (slot t i); [|done].
  by rewrite <- length_sum_list_with.
Qed.

(** ** The queries on a well-formed tree *)

Lemma getSize_wf fuel : forall n t,
  wf n t -> (n < fuel)%nat ->
  Z.of_nat (stored_points t) <= INT_MAX ->
  getSize fuel t = Some (Z.of_nat (stored_points t), t).
Proof.
  induction fuel as [|fuel IH]; intros n t Hwf Hlt Hmax; [lia|].
  cbn [getSize]. unfold bind at 1. unfold gets.
  destruct (depth_ t =? 0) eqn:Hd.
  - apply Z.eqb_eq in Hd. unfold stored_points in *.
    rewrite leaves_leaf in * by done. simpl in *.
    rewrite Nat.add_0_r in *. unfold bind, gets, ret.
    by rewrite int_of_size_small.
  - apply Z.eqb_neq in Hd.
    rewrite (stored_points_internal n) in * by done.
    rewrite (child_loop (getSize fuel) _ int_add
               (fun c => Z.of_nat (stored_points c)) n) by
      first [ done
            | intros i c Hc; destruct n as [|n];
              [ by rewrite wf_O_slot in Hc
              | destruct (wf_S_slot _ _ _ _ Hwf Hc) as (_ & Hwfc & _);
                apply (IH n); [done|lia|];
                pose proof (at_slot_le_sum _ _ stored_points _ _ Hwf Hc);
                lia ] ].
    by rewrite (iterate_count t stored_points) by lia.
Qed.

Lemma getClusterCount_wf fuel : forall n t,
  wf n t -> (n < fuel)%nat ->
  Z.of_nat (length (leaves t)) <= INT_MAX ->
  getClusterCount fuel t = Some (Z.of_nat (length (leaves t)), t).
Proof.
  induction fuel as [|fuel IH]; intros n t Hwf Hlt Hmax; [lia|].
  cbn [getClusterCount]. unfold bind at 1. unfold gets.
  destruct (depth_ t =? 0) eqn:Hd; cbn [negb].
  - apply Z.eqb_eq in Hd. by rewrite leaves_leaf.
  - apply Z.eqb_neq in Hd.
    rewrite (leaf_count_internal n) in * by done.
    rewrite (child_loop (getClusterCount fuel) _ int_add
               (fun c => Z.of_nat (length (leaves c))) n) by
      first [ done
            | intros i c Hc; destruct n as [|n];
              [ by rewrite wf_O_slot in Hc
              | destruct (wf_S_slot _ _ _ _ Hwf Hc) as (_ & Hwfc & _);
                apply (IH n); [done|lia|];
                pose proof (at_slot_le_sum _ _
                              (fun c => length (leaves c)) _ _ Hwf Hc);
                simpl in *; lia ] ].
    by rewrite (iterate_count t (fun c => length (leaves c))) by lia.
Qed.

Lemma mesh_internal n t :
  wf n t -> depth_ t <> 0 ->
  concat (leaf_mesh <$> leaves t) =
  concat (at_slot t (fun c => concat (leaf_mesh <$> leaves c)) [] <$> octants).
Proof.
  intros Hwf Hd. rewrite (leaves_at_slots n) by done.
  rewrite concat_fmap_concat, <- list_fmap_compose. f_equal.
  apply list_fmap_ext. intros _ i _. unfold at_slot; simpl.
  by destruct (slot t i).
Qed.

Lemma getMesh_wf fuel : forall n t,
  wf n t -> (n < fuel)%nat ->
  getMesh fuel t = Some (concat (leaf_mesh <$> leaves t), t).
Proof.
  induction fuel as [|fuel IH]; intros n t Hwf Hlt; [lia|].
  cbn [getMesh]. unfold bind at 1. unfold gets.
  destruct (depth_ t =? 0) eqn:Hd; cbn [negb].
  - apply Z.eqb_eq in Hd. rewrite leaves_leaf by done.
    destruct (wf_leaf _ _ Hwf Hd) as [r Hr].
    unfold bind, lift, ret, leaf_mesh. rewrite Hr. simpl.
    by rewrite app_nil_r, Hr.
  - apply Z.eqb_neq in Hd.
    rewrite (child_loop (getMesh fuel) _
               (fun mesh childMesh => Some (mesh ++ childMesh))
               (fun c => concat (leaf_mesh <$> leaves c)) n) by
      first [ done
            | intros i c Hc; destruct n as [|n];
              [ by rewrite wf_O_slot in Hc
              | destruct (wf_S_slot _ _ _ _ Hwf Hc) as (_ & Hwfc & _);
                apply (IH n); [done|lia] ] ].
    rewrite (iterate_concat t (fun c => concat (leaf_mesh <$> leaves c))).
    do 2 f_equal. cbn [app]. symmetry. by apply (mesh_internal n).
Qed.

Lemma getPoints_wf fuel location : forall n t,
  wf n t -> (n < fuel)%nat ->
  exists pts, getPoints fuel location t = Some (pts, t).
Proof.
  induction fuel as [|fuel IH]; intros n t Hwf Hlt; [lia|].
  cbn [getPoints]. unfold bind. rewrite getChildIndex_eq. unfold gets.
  set (i := octant_of _ _ _).
  destruct (depth_ t =? 0); [by eexists|].
  destruct (is_available_ t !! i) as [b|] eqn:Hb.
  - rewrite (is_available_lookup _ _ _ Hb). destruct b; simpl;
      [|by eexists].
    destruct n as [|n].
    { destruct (wf_available _ _ _ Hwf Hb) as [c Hc].
      by rewrite wf_O_slot in Hc. }
    destruct (wf_S_available _ _ _ Hwf Hb) as (c & Hc & _ & Hwfc & _).
    destruct (IH n c Hwfc) as [pts Hpts]; [lia|].
    exists pts. apply slot_Some in Hc as [_ Hc].
    by apply (on_child_unchanged _ _ _ c).
  - apply lookup_ge_None in Hb. apply wf_arrays in Hwf as [_ Hlen].
    assert (i < 8)%nat; [|lia].
    unfold i, octant_of. repeat case_match; lia.
Qed.

(** ** Insertion *)

Lemma octant_of_lt position halfRange point :
  (octant_of position halfRange point < 8)%nat.
Proof. unfold octant_of. repeat case_match; lia. Qed.

Lemma with_child_slot i child t j :
  (i < length (children_ t))%nat -> (i < length (is_available_ t))%nat ->
  slot (with_child i child t) j =
  if decide (i = j) then Some child else slot t j.
Proof.
  intros Hc Ha. unfold slot, with_child; simpl. case_decide as Hij.
  - subst j. by rewrite !list_lookup_insert_eq.
  - by rewrite !list_lookup_insert_ne.
Qed.

Lemma with_child_available i child t :
  is_available_ t !! i = Some true ->
  with_child i child t =
  set_children (<[i := Some child]> (children_ t)) t.
Proof.
  intros Ha. unfold with_child. rewrite list_insert_id by done.
  by destruct t.
Qed.

(** One level of [addPoint] on an internal node. *)
Lemma addPoint_internal fuel point n t :
  wf n t -> depth_ t <> 0 ->
  addPoint (S fuel) point t =
  match int_sub (depth_ t) 1 with
  | Some _ =>
      match addPoint fuel point (child_for point t) with
      | Some (_, child') =>
          Some (tt, with_child (octant_of (position_ t) (halfRange_ t) point)
                      child' t)
      | None => None
      end
  | None =>
      match slot t (octant_of (position_ t) (halfRange_ t) point) with
      | Some child =>
          match addPoint fuel point child with
          | Some (_, child') =>
              Some (tt, with_child
                          (octant_of (position_ t) (halfRange_ t) point)
                          child' t)
          | None => None
          end
      | None => None
      end
  end.
Proof.
  intros Hwf Hd. cbn [addPoint]. unfold bind at 1. unfold gets.
  apply Z.eqb_neq in Hd as ->. unfold bind at 1.
  rewrite getChildIndex_eq. unfold child_for.
  set (i := octant_of _ _ _). pose proof (octant_of_lt (position_ t)
    (halfRange_ t) point) as Hi. fold i in Hi.
  destruct (wf_arrays _ _ Hwf) as [Hcs Hav].
  destruct (lookup_lt_is_Some_2 (is_available_ t) i) as [b Hb]; [lia|].
  unfold bind at 1. rewrite (is_available_lookup _ _ _ Hb).
  destruct b; cbn [negb].
  - destruct (wf_available _ _ _ Hwf Hb) as [c Hc]. rewrite Hc.
    apply slot_Some in Hc as [_ Hch].
    unfold bind, ret, on_child. rewrite Hch.
    destruct (int_sub (depth_ t) 1);
      destruct (addPoint fuel point c) as [[[] c']|]; try done;
      by rewrite with_child_available.
  - assert (slot t i = None) as -> by (unfold slot; by rewrite Hb).
    unfold bind at 1. unfold initChild, bind, gets, lift.
    destruct (int_sub (depth_ t) 1) as [d'|] eqn:Hsub; [|done].
    assert (d' = depth_ t - 1) as ->.
    { unfold int_sub in Hsub. by destruct (in_int _); simplify_eq. }
    unfold modify, on_child.
    cbn [children_ set_is_available set_children].
    rewrite list_lookup_insert_eq by lia.
    destruct (addPoint fuel point _) as [[[] c']|]; [|done].
    unfold with_child; simpl. by rewrite list_insert_insert_eq.
Qed.

Lemma int_sub_1 d : in_int d = true -> 0 < d -> int_sub d 1 = Some (d - 1).
Proof.
  unfold int_sub, in_int, INT_MIN, INT_MAX. intros Hd Hpos.
  apply andb_true_iff in Hd as [?%Z.leb_le ?%Z.leb_le].
  replace ((_ <=? d - 1) && (d - 1 <=? _)) with true; [done|].
  symmetry. apply andb_true_iff. split; apply Z.leb_le; lia.
Qed.

Lemma wf_child_for n point t :
  wf (S n) t -> depth_ t = Z.of_nat (S n) ->
  wf n (child_for point t) /\ depth_ (child_for point t) = Z.of_nat n.
Proof.
  intros Hwf Hd. unfold child_for.
  destruct (slot t _) as [c|] eqn:Hc.
  - destruct (wf_S_slot _ _ _ _ Hwf Hc) as (Hdc & Hwfc & _).
    split; [done|lia].
  - split; [|simpl; lia]. apply wf_new.
    apply in_int_small. pose proof (wf_in_int _ _ Hwf) as Hin.
    unfold in_int, INT_MAX in *.
    apply andb_true_iff in Hin as [_ ?%Z.leb_le]. lia.
Qed.

(** [addPoint] returns on a tree of non-negative depth, with the tree
    [inserted]. *)
Lemma addPoint_inserted point fuel : forall n t,
  wf n t -> depth_ t = Z.of_nat n -> (n < fuel)%nat ->
  addPoint fuel point t = Some (tt, inserted n point t).
Proof.
  induction fuel as [|fuel IH]; intros n t Hwf Hd Hlt; [lia|].
  destruct n as [|n].
  - cbn [addPoint]. unfold bind, gets. by rewrite Hd.
  - rewrite (addPoint_internal _ _ _ _ Hwf) by lia.
    rewrite int_sub_1 by (first [by eapply wf_in_int | lia]).
    destruct (wf_child_for n point t Hwf Hd) as [Hwfc Hdc].
    by rewrite (IH n) by (done || lia).
Qed.

Lemma inserted_depth n point t : depth_ (inserted n point t) = depth_ t.
Proof. by destruct n. Qed.

Lemma inserted_position n point t :
  position_ (inserted n point t) = position_ t /\
  halfRange_ (inserted n point t) = halfRange_ t.
Proof. by destruct n. Qed.

Lemma wf_with_child n t i child :
  wf (S n) t -> (i < 8)%nat ->
  depth_ child = depth_ t - 1 -> wf n child ->
  (depth_ child = 0 -> points_ child <> []) ->
  wf (S n) (with_child i child t).
Proof.
  intros (Hcs & Hav & Hin & Hrc & Hpts & Hs) Hi Hd Hwfc Hne.
  cbn [wf with_child set_is_available set_children children_ is_available_
       depth_ reconstructor points_].
  rewrite !length_insert. repeat split; try done.
  intros j Hj. destruct (decide (i = j)) as [<-|Hij].
  - exists child. by rewrite list_lookup_insert_eq by lia.
  - rewrite list_lookup_insert_ne in Hj by done.
    rewrite list_lookup_insert_ne by done. by apply Hs.
Qed.

Lemma inserted_wf point n : forall t,
  wf n t -> depth_ t = Z.of_nat n ->
  wf n (inserted n point t) /\
  (depth_ (inserted n point t) = 0 -> points_ (inserted n point t) <> []).
Proof.
  induction n as [|n IH]; intros t Hwf Hd.
  - split.
    + destruct Hwf as (? & ? & ? & ? & ? & ?). by repeat split.
    + intros _. simpl. by destruct (points_ t).
  - destruct (wf_child_for n point t Hwf Hd) as [Hwfc Hdc].
    destruct (IH _ Hwfc Hdc) as [Hwf' Hne]. split.
    + cbn [inserted]. apply wf_with_child; try done.
      * apply octant_of_lt.
      * rewrite inserted_depth. lia.
    + rewrite inserted_depth. lia.
Qed.

Lemma slot_new position range depth i :
  slot (new_ReconstructionOcTree position range depth) i = None.
Proof.
  unfold slot. cbn [new_ReconstructionOcTree is_available_].
  destruct (replicate 8 false !! i) as [b|] eqn:Hb; [|done].
  by apply lookup_replicate in Hb as [-> _].
Qed.

Lemma node_at_new path position range depth :
  points_at path (new_ReconstructionOcTree position range depth) = [].
Proof.
  unfold points_at. destruct path as [|i path]; [done|].
  cbn [node_at]. by rewrite slot_new.
Qed.

(** The point is appended to the buffer of one leaf. *)
Lemma inserted_leaf point n : forall t,
  wf n t -> depth_ t = Z.of_nat n ->
  exists path leaf,
    node_at path (inserted n point t) = Some leaf /\
    depth_ leaf = 0 /\
    points_ leaf = points_at path t ++ [point].
Proof.
  induction n as [|n IH]; intros t Hwf Hd.
  - exists [], (inserted 0 point t). by repeat split.
  - destruct (wf_child_for n point t Hwf Hd) as [Hwfc Hdc].
    destruct (IH _ Hwfc Hdc) as (path & leaf & Hnode & Hleaf & Hpts).
    destruct (wf_arrays _ _ Hwf) as [Hcs Hav].
    pose proof (octant_of_lt (position_ t) (halfRange_ t) point) as Hi.
    exists (octant_of (position_ t) (halfRange_ t) point :: path), leaf.
    repeat split; try done.
    + cbn [inserted node_at]. rewrite with_child_slot by lia.
      by rewrite decide_True.
    + rewrite Hpts. f_equal. unfold points_at, child_for. cbn [node_at].
      destruct (slot t _); [done|]. apply node_at_new.
Qed.

(** [getPoints] at the point just inserted finds it. *)
Lemma getPoints_inserted point fuel : forall n t,
  wf n t -> depth_ t = Z.of_nat n -> (n < fuel)%nat ->
  exists pts,
    getPoints fuel point (inserted n point t) =
      Some (pts, inserted n point t) /\
    point ∈ pts.
Proof.
  induction fuel as [|fuel IH]; intros n t Hwf Hd Hlt; [lia|].
  destruct n as [|n].
  - exists (points_ t ++ [point]). split.
    + cbn [getPoints]. unfold bind. rewrite getChildIndex_eq.
      unfold gets. simpl. by rewrite Hd.
    + apply elem_of_app. right. by apply list_elem_of_singleton.
  - destruct (wf_child_for n point t Hwf Hd) as [Hwfc Hdc].
    destruct (IH n _ Hwfc Hdc) as (pts & Hget & Hin); [lia|].
    destruct (wf_arrays _ _ Hwf) as [Hcs Hav].
    pose proof (octant_of_lt (position_ t) (halfRange_ t) point) as Hi.
    exists pts. split; [|done].
    cbn [getPoints]. unfold bind. rewrite getChildIndex_eq. unfold gets.
    destruct (inserted_position (S n) point t) as [-> ->].
    rewrite inserted_depth.
    replace (depth_ t =? 0) with false by (symmetry; apply Z.eqb_neq; lia).
    cbn [inserted].
    set (i := octant_of _ _ _) in *.
    rewrite (is_available_lookup i _ true); cbn [negb].
    + eapply on_child_unchanged; [|done].
      simpl. by rewrite list_lookup_insert_eq by lia.
    + simpl. by rewrite list_lookup_insert_eq by lia.
Qed.

(** ** More fuel does not change a result *)

Lemma refines_refl {A} (m : M A) : refines m m.
Proof. by intros t r. Qed.

Lemma refines_bind {A B} (m m' : M A) (k k' : A -> M B) :
  refines m m' -> (forall a, refines (k a) (k' a)) ->
  refines (bind m k) (bind m' k').
Proof.
  intros Hm Hk t r. unfold bind.
  destruct (m t) as [[a t1]|] eqn:Hmt; [|done].
  rewrite (Hm _ _ Hmt). apply Hk.
Qed.

Lemma refines_on_child {A} i (m m' : M A) :
  refines m m' -> refines (on_child i m) (on_child i m').
Proof.
  intros Hm t r. unfold on_child.
  destruct (children_ t !! i) as [[c|]|]; try done.
  destruct (m c) as [[a c']|] eqn:Hmc; [|done].
  by rewrite (Hm _ _ Hmc).
Qed.

Lemma refines_for_each {A} (body body' : A -> nat -> M A) range :
  (forall acc i, refines (body acc i) (body' acc i)) ->
  forall acc, refines (for_each body acc range) (for_each body' acc range).
Proof.
  intros Hb. induction range as [|i range IH]; intros acc; simpl.
  - apply refines_refl.
  - apply refines_bind; [apply Hb|apply IH].
Qed.

Lemma refines_child_loop {A B} (m m' : M B) (K : A -> B -> M A) acc :
  refines m m' ->
  refines
    (for_each (fun acc i =>
                 a <- is_available i ;;
                 if a : bool then x <- on_child i m ;; K acc x else ret acc)
       acc octants)
    (for_each (fun acc i =>
                 a <- is_available i ;;
                 if a : bool then x <- on_child i m' ;; K acc x else ret acc)
       acc octants).
Proof.
  intros Hm. apply refines_for_each. intros acc' i.
  apply refines_bind; [apply refines_refl|]. intros [|]; [|apply refines_refl].
  apply refines_bind; [by apply refines_on_child|].
  intros x. apply refines_refl.
Qed.

Lemma addPoint_fuel_S point fuel :
  refines (addPoint fuel point) (addPoint (S fuel) point).
Proof.
  induction fuel as [|fuel IH]; [done|].
  cbn [addPoint]. apply refines_bind; [apply refines_refl|]. intros d.
  destruct (d =? 0); [apply refines_refl|].
  apply refines_bind; [apply refines_refl|]. intros i.
  apply refines_bind; [apply refines_refl|]. intros a.
  apply refines_bind; [apply refines_refl|]. intros _.
  by apply refines_on_child.
Qed.

Lemma getSize_fuel_S fuel : refines (getSize fuel) (getSize (S fuel)).
Proof.
  induction fuel as [|fuel IH]; [done|].
  cbn [getSize]. apply refines_bind; [apply refines_refl|]. intros d.
  destruct (d =? 0); [apply refines_refl|].
  by apply (refines_child_loop _ _ (fun size k => lift (int_add size k))).
Qed.

Lemma getClusterCount_fuel_S fuel :
  refines (getClusterCount fuel) (getClusterCount (S fuel)).
Proof.
  induction fuel as [|fuel IH]; [done|].
  cbn [getClusterCount]. apply refines_bind; [apply refines_refl|]. intros d.
  destruct (negb (d =? 0)); [|apply refines_refl].
  by apply (refines_child_loop _ _ (fun size k => lift (int_add size k))).
Qed.

Lemma getMesh_fuel_S fuel : refines (getMesh fuel) (getMesh (S fuel)).
Proof.
  induction fuel as [|fuel IH]; [done|].
  cbn [getMesh]. apply refines_bind; [apply refines_refl|]. intros d.
  destruct (negb (d =? 0)); [|apply refines_refl].
  by apply (refines_child_loop _ _
              (fun mesh childMesh => ret (mesh ++ childMesh))).
Qed.

Lemma getPoints_fuel_S location fuel :
  refines (getPoints fuel location) (getPoints (S fuel) location).
Proof.
  induction fuel as [|fuel IH]; [done|].
  cbn [getPoints]. apply refines_bind; [apply refines_refl|]. intros i.
  apply refines_bind; [apply refines_refl|]. intros d.
  destruct (d =? 0); [apply refines_refl|].
  apply refines_bind; [apply refines_refl|]. intros a.
  destruct (negb a); [apply refines_refl|].
  by apply refines_on_child.
Qed.

Lemma reconstruct_fuel_S fuel :
  refines (reconstruct build_mesh fuel) (reconstruct build_mesh (S fuel)).
Proof.
  induction fuel as [|fuel IH]; [done|].
  cbn [reconstruct]. apply refines_bind; [apply refines_refl|]. intros d.
  destruct (d =? 0); [apply refines_refl|].
  apply refines_for_each. intros [] i.
  apply refines_bind; [apply refines_refl|]. intros [|]; [|apply refines_refl].
  by apply refines_on_child.
Qed.

Lemma fuel_le {A} (m : nat -> M A) :
  (forall fuel, refines (m fuel) (m (S fuel))) ->
  forall fuel fuel', (fuel <= fuel')%nat -> refines (m fuel) (m fuel').
Proof.
  intros HS fuel fuel' Hle. induction Hle as [|fuel' _ IH].
  - apply refines_refl.
  - intros t r Hr. by apply HS, IH.
Qed.

(** ** The invariant holds in every state of a root *)

Lemma for_each_invariant {A} (body : A -> nat -> M A)
    (I : ReconstructionOcTree -> Prop) range :
  (forall acc i t acc' t',
      i ∈ range -> I t -> body acc i t = Some (acc', t') -> I t') ->
  forall acc t acc' t',
    I t -> for_each body acc range t = Some (acc', t') -> I t'.
Proof.
  induction range as [|i range IH]; intros Hbody acc t acc' t' HI; simpl.
  - unfold ret. by intros [= _ <-].
  - unfold bind. destruct (body acc i t) as [[a1 t1]|] eqn:Hb; [|done].
    apply IH.
    + intros ????? Hin. apply Hbody. by apply elem_of_cons; right.
    + eapply Hbody; [|done|done]. by apply elem_of_cons; left.
Qed.

Lemma wf_set_reconstructor n t r :
  wf n t -> wf n (set_reconstructor (Some r) t).
Proof.
  destruct n; intros (? & ? & ? & ? & ? & ?); repeat split; try done;
    intros _; by eexists.
Qed.

(** [reconstruct] keeps the shape of the tree and its points. *)
Lemma reconstruct_wf fuel : forall n t t',
  wf n t -> reconstruct build_mesh fuel t = Some (tt, t') ->
  wf n t' /\ depth_ t' = depth_ t /\ points_ t' = points_ t.
Proof.
  induction fuel as [|fuel IH]; intros n t t' Hwf; [done|].
  cbn [reconstruct]. unfold bind at 1. unfold gets.
  destruct (depth_ t =? 0).
  - unfold bind, gets, lift, modify.
    destruct (reconstructor t) as [r|]; [|done]. intros [= <-].
    split; [by apply wf_set_reconstructor|done].
  - apply (for_each_invariant _
             (fun t1 => wf n t1 /\ depth_ t1 = depth_ t /\
                        points_ t1 = points_ t)); [|done].
    clear t' Hwf. intros [] i t1 [] t2 _ (Hwf & Hd & Hp). unfold bind.
    destruct (is_available i t1) as [[b t3]|] eqn:Hb; [|done].
    pose proof (is_available_frame _ _ _ _ Hb) as ->.
    unfold is_available, lift in Hb.
    destruct (is_available_ t1 !! i) as [b'|] eqn:Hb'; [|done].
    injection Hb as <-. destruct b'.
    + unfold on_child.
      destruct (children_ t1 !! i) as [[c|]|] eqn:Hc; try done.
      destruct (reconstruct build_mesh fuel c) as [[[] c']|] eqn:Hr;
        [|done].
      intros [= <-]. rewrite <- (with_child_available _ _ _ Hb').
      destruct n as [|n].
      { destruct (wf_available _ _ _ Hwf Hb') as [c0 Hc0].
        by rewrite wf_O_slot in Hc0. }
      assert (slot t1 i = Some c) as Hs by by apply slot_Some.
      destruct (wf_S_slot _ _ _ _ Hwf Hs) as (Hdc & Hwfc & Hne).
      destruct (IH _ _ _ Hwfc Hr) as (Hwfc' & Hdc' & Hpc').
      split; [|done]. apply wf_with_child; try done.
      * apply lookup_lt_Some in Hb'.
        destruct (wf_arrays _ _ Hwf) as [_ Hav]. lia.
      * congruence.
      * rewrite Hdc', Hpc'. done.
    + unfold ret. by intros [= <-].
Qed.

(** [addPoint] never returns on a node of negative depth. *)
Lemma addPoint_negative point fuel : forall t,
  wf 0 t -> depth_ t < 0 -> addPoint fuel point t = None.
Proof.
  induction fuel as [|fuel IH]; intros t Hwf Hd; [done|].
  rewrite (addPoint_internal _ _ _ _ Hwf) by lia.
  unfold child_for. rewrite (wf_O_slot _ _ Hwf).
  destruct (int_sub (depth_ t) 1) as [d'|] eqn:Hsub; [|done].
  rewrite IH; [done| |simpl; lia].
  apply wf_new. unfold int_sub in Hsub.
  by destruct (in_int (depth_ t - 1)).
Qed.

Theorem Reachable_wf t :
  Reachable build_mesh t -> wf (Z.to_nat (depth_ t)) t.
Proof.
  induction 1 as [position range depth Hd|t fuel c t' _ IH Hexec].
  - by apply wf_new.
  - destruct c as [point| | |location| |]; cbn [exec] in Hexec.
    + destruct (addPoint fuel point t) as [[[] t1]|] eqn:Hadd; [|done].
      injection Hexec as ->.
      destruct (Z.lt_ge_cases (depth_ t) 0) as [Hneg|Hpos].
      { rewrite addPoint_negative in Hadd; [done| |done].
        by replace (Z.to_nat (depth_ t)) with 0%nat in IH by lia. }
      apply (fuel_le _ (addPoint_fuel_S point) fuel
               (fuel + S (Z.to_nat (depth_ t)))) in Hadd; [|lia].
      rewrite (addPoint_inserted _ _ (Z.to_nat (depth_ t))) in Hadd
        by (done || lia).
      injection Hadd as <-. rewrite inserted_depth.
      apply inserted_wf; [done|lia].
    + destruct (reconstruct build_mesh fuel t) as [[[] t1]|] eqn:Hr; [|done].
      injection Hexec as ->.
      destruct (reconstruct_wf _ _ _ _ IH Hr) as (? & -> & _). done.
    + destruct (getSize fuel t) as [[v t1]|] eqn:Hr; [|done].
      injection Hexec as ->. by apply getSize_frame in Hr as ->.
    + destruct (getPoints fuel location t) as [[v t1]|] eqn:Hr; [|done].
      injection Hexec as ->. by apply getPoints_frame in Hr as ->.
    + destruct (getClusterCount fuel t) as [[v t1]|] eqn:Hr; [|done].
      injection Hexec as ->. by apply getClusterCount_frame in Hr as ->.
    + destruct (getMesh fuel t) as [[v t1]|] eqn:Hr; [|done].
      injection Hexec as ->. by apply getMesh_frame in Hr as ->.
Qed.

(** ** Counting points and leaves *)

Lemma stored_points_new position range depth :
  stored_points (new_ReconstructionOcTree position range depth) = 0%nat.
Proof.
  unfold stored_points, new_ReconstructionOcTree. cbn [leaves].
  by destruct (depth =? 0).
Qed.

Lemma sum_list_with_update (f g : nat -> nat) i range :
  NoDup range -> i ∈ range ->
  (forall j, j <> i -> g j = f j) -> g i = S (f i) ->
  sum_list_with g range = S (sum_list_with f range).
Proof.
  intros Hnd Hi Hother Hat. induction Hnd as [|j range Hj Hnd IH]; simpl.
  - by apply elem_of_nil in Hi.
  - apply elem_of_cons in Hi as [<-|Hi].
    + rewrite Hat. simpl. do 2 f_equal.
      apply sum_list_with_ext. intros k Hk. apply Hother.
      intros ->. done.
    + rewrite IH by done. rewrite Hother; [lia|]. intros ->. done.
Qed.

Lemma at_slot_child_for {B} point t (f : ReconstructionOcTree -> B) d :
  f (new_ReconstructionOcTree
       (childPosition (position_ t) (halfRange_ t) point)
       (halfRange_ t) (depth_ t - 1)) = d ->
  at_slot t f d (octant_of (position_ t) (halfRange_ t) point) =
  f (child_for point t).
Proof.
  intros Hnew. unfold at_slot, child_for. by destruct (slot t _).
Qed.

Lemma stored_points_inserted point n : forall t,
  wf n t -> depth_ t = Z.of_nat n ->
  stored_points (inserted n point t) = S (stored_points t).
Proof.
  induction n as [|n IH]; intros t Hwf Hd.
  - unfold stored_points. rewrite !leaves_leaf by done. simpl.
    rewrite length_app. simpl. lia.
  - destruct (wf_child_for n point t Hwf Hd) as [Hwfc Hdc].
    destruct (inserted_wf point _ _ Hwf Hd) as [Hwf' _].
    destruct (wf_arrays _ _ Hwf) as [Hcs Hav].
    pose proof (octant_of_lt (position_ t) (halfRange_ t) point) as Hi.
    rewrite (stored_points_internal (S n) (inserted _ _ _))
      by (done || rewrite inserted_depth; lia).
    rewrite (stored_points_internal (S n) t) by (done || lia).
    apply (sum_list_with_update _ _
             (octant_of (position_ t) (halfRange_ t) point)).
    + apply NoDup_seq.
    + apply elem_of_seq. lia.
    + intros j Hj. unfold at_slot. cbn [inserted].
      rewrite with_child_slot by lia. by rewrite decide_False.
    + rewrite (at_slot_child_for point t) by apply stored_points_new.
      unfold at_slot. cbn [inserted].
      rewrite with_child_slot by lia. rewrite decide_True by done.
      by apply IH.
Qed.

Lemma has_points_true t : points_ t <> [] -> has_points t = true.
Proof. unfold has_points. by destruct (points_ t). Qed.

(** Below an internal node every materialised leaf holds a point. *)
Lemma leaves_have_points n : forall t,
  wf n t -> depth_ t <> 0 -> all_have_points (leaves t).
Proof.
  induction n as [|n IH]; intros t Hwf Hd;
    rewrite (leaves_at_slots _ _ Hwf Hd);
    apply Forall_concat, Forall_fmap, Forall_forall; intros i _;
    unfold at_slot; simpl; destruct (slot t i) as [c|] eqn:Hc;
    try apply Forall_nil_2.
  - by rewrite wf_O_slot in Hc.
  - destruct (wf_S_slot _ _ _ _ Hwf Hc) as (_ & Hwfc & Hne).
    destruct (decide (depth_ c = 0)) as [Hdc|Hdc].
    + rewrite leaves_leaf by done. apply Forall_singleton.
      by apply has_points_true, Hne.
    + by apply IH.
Qed.

Lemma filter_all_have_points l :
  all_have_points l -> List.filter has_points l = l.
Proof.
  induction 1 as [|x l Hx _ IH]; simpl; [done|]. by rewrite Hx, IH.
Qed.

Lemma length_le_stored l :
  all_have_points l ->
  (length l <= sum_list_with (fun leaf => length (points_ leaf)) l)%nat.
Proof.
  induction 1 as [|x l Hx _ IH]; simpl; [done|].
  unfold has_points in Hx. destruct (points_ x); [done|]. simpl. lia.
Qed.

(** ** Sequences of insertions *)

Lemma addPoints_fuel_le points : forall fuel fuel' t t',
  (fuel <= fuel')%nat ->
  addPoints fuel points t = Some t' -> addPoints fuel' points t = Some t'.
Proof.
  induction points as [|point points IH]; intros fuel fuel' t t' Hle; simpl;
    [done|].
  destruct (addPoint fuel point t) as [[[] t1]|] eqn:Hadd; [|done].
  rewrite (fuel_le _ (addPoint_fuel_S point) _ _ Hle _ _ Hadd).
  by apply IH.
Qed.

Lemma addPoints_wf fuel points : forall n t,
  wf n t -> depth_ t = Z.of_nat n -> (n < fuel)%nat ->
  exists t',
    addPoints fuel points t = Some t' /\
    wf n t' /\ depth_ t' = depth_ t /\
    stored_points t' = (stored_points t + length points)%nat /\
    (points <> [] -> depth_ t' = 0 -> points_ t' <> []).
Proof.
  induction points as [|point points IH]; intros n t Hwf Hd Hlt.
  - exists t. repeat split; try done.
  - cbn [addPoints]. rewrite (addPoint_inserted _ _ n) by done.
    destruct (inserted_wf point _ _ Hwf Hd) as [Hwf1 Hne1].
    destruct (IH n (inserted n point t)) as (t' & Hrun & Hwf' & Hd' & Hst & Hne);
      [done|by rewrite inserted_depth|done|].
    exists t'. rewrite inserted_depth in Hd'.
    rewrite stored_points_inserted in Hst by done.
    repeat split; try done.
    + simpl. lia.
    + intros _ Hleaf. destruct points as [|point' points].
      * simpl in Hrun. injection Hrun as <-. apply Hne1.
        by rewrite inserted_depth, <- Hd'.
      * by apply Hne.
Qed.

(** ** The nodes of a tree *)

Lemma node_at_wf path : forall t node,
  wf (Z.to_nat (depth_ t)) t -> node_at path t = Some node ->
  wf (Z.to_nat (depth_ node)) node.
Proof.
  induction path as [|i path IH]; intros t node Hwf; simpl.
  - by intros [= <-].
  - destruct (slot t i) as [c|] eqn:Hc; [|done].
    destruct (Z.to_nat (depth_ t)) as [|n] eqn:Hn.
    { by rewrite wf_O_slot in Hc. }
    destruct (wf_S_slot _ _ _ _ Hwf Hc) as (Hdc & Hwfc & _).
    apply IH. by replace (Z.to_nat (depth_ c)) with n by lia.
Qed.

Lemma InTree_wf t : InTree build_mesh t -> wf (Z.to_nat (depth_ t)) t.
Proof.
  intros (root & path & Hroot & Hnode).
  eapply node_at_wf; [|done]. by apply Reachable_wf.
Qed.

Lemma Reachable_InTree t : Reachable build_mesh t -> InTree build_mesh t.
Proof. intros Hr. by exists t, []. Qed.

(** ** Insertion and the counters *)

Lemma new_run position range depth points fuel :
  in_int depth = true -> (0 <= depth \/ points = []) ->
  (Z.to_nat depth < fuel)%nat ->
  exists t,
    addPoints fuel points (new_ReconstructionOcTree position range depth)
      = Some t /\
    wf (Z.to_nat depth) t /\ depth_ t = depth /\
    stored_points t = length points /\
    (points <> [] -> depth = 0 -> points_ t <> []).
Proof.
  intros Hint [Hd| ->] Hfuel.
  - destruct (addPoints_wf fuel points (Z.to_nat depth)
                (new_ReconstructionOcTree position range depth))
      as (t & Hrun & Hwf & Hdt & Hst & Hne);
      [by apply wf_new|simpl; lia|done|].
    exists t. rewrite stored_points_new in Hst. simpl in Hdt.
    repeat split; try done. intros ? ?. apply Hne; [done|congruence].
  - eexists. repeat split; try done.
    + by apply wf_new.
    + apply stored_points_new.
Qed.

(** C3, as amended.  For a root built with a depth that is not negative
    (or when no point is inserted), and a sequence of at most [INT_MAX]
    points inserted with [addPoint], every insertion returns, and [getSize]
    then returns the number of points of the sequence and leaves the tree as
    it is. *)
Theorem size_counts_insertions position range depth points fuel :
  in_int depth = true -> (0 <= depth \/ points = []) ->
  (Z.to_nat depth < fuel)%nat ->
  Z.of_nat (length points) <= INT_MAX ->
  exists t,
    addPoints fuel points (new_ReconstructionOcTree position range depth)
      = Some t /\
    getSize fuel t = Some (Z.of_nat (length points), t).
Proof.
  intros Hint Hd Hfuel Hmax.
  destruct (new_run position range depth points fuel)
    as (t & Hrun & Hwf & _ & Hst & _); try done.
  exists t. split; [done|]. rewrite <- Hst.
  apply (getSize_wf fuel (Z.to_nat depth)); try done. by rewrite Hst.
Qed.

(** C4, as amended.  For every root and every insertion sequence that
    completes (the depth is not negative, or the sequence is empty), on a
    root of depth 0 into which nothing was inserted [getClusterCount]
    returns 1; in every other case it returns the number of leaves that
    have received at least one point, whenever this number is at most
    [INT_MAX] (at depth 0 it is 1).  The points need not lie in the cube of
    the root, and their number is not bounded. *)
Theorem cluster_count_counts_leaves position range depth points fuel :
  in_int depth = true -> (0 <= depth \/ points = []) ->
  (Z.to_nat depth < fuel)%nat ->
  exists t,
    addPoints fuel points (new_ReconstructionOcTree position range depth)
      = Some t /\
    (depth = 0 -> points = [] -> getClusterCount fuel t = Some (1, t)) /\
    ((depth = 0 -> points <> []) ->
     Z.of_nat (leaves_with_points t) <= INT_MAX ->
     getClusterCount fuel t = Some (Z.of_nat (leaves_with_points t), t)).
Proof.
  intros Hint Hd Hfuel.
  destruct (new_run position range depth points fuel)
    as (t & Hrun & Hwf & Hdt & _ & Hne); try done.
  exists t. split; [done|]. split.
  - intros Hz _.
    pose proof (getClusterCount_wf fuel (Z.to_nat depth) t Hwf Hfuel)
      as Hcount.
    rewrite leaves_leaf in Hcount by congruence. by apply Hcount.
  - intros Hleaf Hmax.
    assert (all_have_points (leaves t)) as Hall.
    { destruct (decide (depth = 0)) as [Hz|Hnz].
      - rewrite leaves_leaf by congruence. apply Forall_singleton.
        apply has_points_true. by apply Hne; [apply Hleaf|].
      - apply (leaves_have_points (Z.to_nat depth)); [done|congruence]. }
    unfold leaves_with_points in *.
    rewrite filter_all_have_points in * by done.
    by apply (getClusterCount_wf fuel (Z.to_nat depth)).
Qed.

(** C5, as amended.  In every state of a root whose depth is not negative,
    and for every point, [addPoint point] returns and [getPoints point],
    called next, returns a sequence that contains the point. *)
Theorem points_near_after_insert t point fuel :
  Reachable build_mesh t -> 0 <= depth_ t ->
  (Z.to_nat (depth_ t) < fuel)%nat ->
  exists t' pts,
    addPoint fuel point t = Some (tt, t') /\
    getPoints fuel point t' = Some (pts, t') /\
    In point pts.
Proof.
  intros Hr Hd Hfuel. pose proof (Reachable_wf _ Hr) as Hwf.
  destruct (getPoints_inserted point fuel (Z.to_nat (depth_ t)) t)
    as (pts & Hget & Hin); [done|lia|done|].
  exists (inserted (Z.to_nat (depth_ t)) point t), pts.
  split; [|split; [done|by apply list_elem_of_In]].
  apply addPoint_inserted; [done|lia|done].
Qed.

(** C6, as amended.  In every state of a root whose depth is not negative,
    and for every point, inside the cube of the root or not,
    [getChildIndex] returns an index from 0 to 7 and [addPoint] returns,
    having appended the point to the buffer of one leaf. *)
Theorem insert_accepts_every_point t point fuel :
  Reachable build_mesh t -> 0 <= depth_ t ->
  (Z.to_nat (depth_ t) < fuel)%nat ->
  (exists index,
      getChildIndex point t = Some (index, t) /\ (index <= 7)%nat) /\
  exists t' path leaf,
    addPoint fuel point t = Some (tt, t') /\
    node_at path t' = Some leaf /\
    depth_ leaf = 0 /\
    points_ leaf = points_at path t ++ [point].
Proof.
  intros Hr Hd Hfuel. pose proof (Reachable_wf _ Hr) as Hwf. split.
  - eexists. split; [apply getChildIndex_eq|].
    pose proof (octant_of_lt (position_ t) (halfRange_ t) point). lia.
  - destruct (inserted_leaf point (Z.to_nat (depth_ t)) t)
      as (path & leaf & Hnode & Hleaf & Hpts); [done|lia|].
    exists (inserted (Z.to_nat (depth_ t)) point t), path, leaf.
    split; [|done]. apply addPoint_inserted; [done|lia|done].
Qed.

(** ** The queries *)

(** C7.  On an internal node (depth > 0) of a tree, when the slot that
    [getChildIndex location] selects is absent, [getPoints location]
    returns the empty sequence and leaves the node as it is: no child is
    materialised. *)
Theorem points_near_absent_slot t location index fuel :
  InTree build_mesh t -> 0 < depth_ t ->
  getChildIndex location t = Some (index, t) ->
  slot t index = None ->
  getPoints (S fuel) location t = Some ([], t).
Proof.
  intros Ht Hd Hindex Hslot. pose proof (InTree_wf _ Ht) as Hwf.
  rewrite getChildIndex_eq in Hindex. injection Hindex as <-.
  cbn [getPoints]. unfold bind. rewrite getChildIndex_eq. unfold gets.
  set (i := octant_of _ _ _) in *.
  replace (depth_ t =? 0) with false by (symmetry; apply Z.eqb_neq; lia).
  destruct (wf_arrays _ _ Hwf) as [_ Hav].
  pose proof (octant_of_lt (position_ t) (halfRange_ t) location) as Hi.
  destruct (lookup_lt_is_Some_2 (is_available_ t) i) as [b Hb];
    [fold i in Hi; lia|].
  rewrite (is_available_lookup _ _ _ Hb). destruct b; cbn [negb].
  - destruct (wf_available _ _ _ Hwf Hb) as [c Hc]. congruence.
  - by rewrite (wf_internal _ _ Hwf) by lia.
Qed.

(** C8.  On an internal node of a tree, [getMesh] returns the
    concatenation, by ascending octant 0 to 7, of what [getMesh] returns on
    each child, an absent slot contributing the empty mesh. *)
Theorem collect_mesh_concatenates_children t fuel :
  InTree build_mesh t -> depth_ t <> 0 ->
  (Z.to_nat (depth_ t) <= fuel)%nat ->
  exists meshes,
    Forall2 (child_mesh fuel t) octants meshes /\
    getMesh (S fuel) t = Some (concat meshes, t).
Proof.
  intros Ht Hd Hfuel. pose proof (InTree_wf _ Ht) as Hwf.
  exists (at_slot t (fun c => concat (leaf_mesh <$> leaves c)) [] <$> octants).
  split.
  - apply Forall2_fmap_r, Forall_Forall2_diag, Forall_forall.
    intros i _. unfold child_mesh, at_slot, compose.
    destruct (slot t i) as [c|] eqn:Hc; [|done].
    destruct (Z.to_nat (depth_ t)) as [|n] eqn:Hn.
    { by rewrite wf_O_slot in Hc. }
    destruct (wf_S_slot _ _ _ _ Hwf Hc) as (_ & Hwfc & _).
    apply (getMesh_wf fuel n); [done|lia].
  - rewrite <- (mesh_internal _ _ Hwf Hd).
    apply (getMesh_wf (S fuel) (Z.to_nat (depth_ t))); [done|lia].
Qed.

(** C9.  On every node of a tree, two calls of [getMesh] in succession
    return the same mesh. *)
Theorem collect_mesh_twice t fuel :
  InTree build_mesh t -> (Z.to_nat (depth_ t) < fuel)%nat ->
  exists mesh t1 t2,
    getMesh fuel t = Some (mesh, t1) /\
    getMesh fuel t1 = Some (mesh, t2).
Proof.
  intros Ht Hfuel. pose proof (InTree_wf _ Ht) as Hwf.
  pose proof (getMesh_wf fuel _ t Hwf Hfuel) as Hmesh.
  by exists (concat (leaf_mesh <$> leaves t)), t, t.
Qed.

(** C10.  On every node of a tree, [getPoints] and [getMesh] return and
    leave the node, with everything below it, exactly as it was;
    [getSize] and [getClusterCount] leave it as it was whenever they
    return, and they return when their count fits an [int]. *)
Theorem queries_leave_tree_unchanged t location fuel :
  InTree build_mesh t -> (Z.to_nat (depth_ t) < fuel)%nat ->
  (exists pts, getPoints fuel location t = Some (pts, t)) /\
  (exists mesh, getMesh fuel t = Some (mesh, t)) /\
  (forall v t', getSize fuel t = Some (v, t') -> t' = t) /\
  (Z.of_nat (stored_points t) <= INT_MAX ->
   exists v, getSize fuel t = Some (v, t)) /\
  (forall v t', getClusterCount fuel t = Some (v, t') -> t' = t) /\
  (Z.of_nat (length (leaves t)) <= INT_MAX ->
   exists v, getClusterCount fuel t = Some (v, t)).
Proof.
  intros Ht Hfuel. pose proof (InTree_wf _ Ht) as Hwf.
  split; [by eapply getPoints_wf|].
  split; [eexists; by eapply getMesh_wf|].
  split; [apply getSize_frame|].
  split; [intros; eexists; by eapply getSize_wf|].
  split; [apply getClusterCount_frame|].
  intros; eexists; by eapply getClusterCount_wf.
Qed.

End Properties.

(** * The sample trees *)

Section Runs.

Context `{Scalar}.
Variable build_mesh : list vec3 -> list vec3.

Lemma Reachable_addPoints points : forall fuel t t',
  Reachable build_mesh t -> addPoints fuel points t = Some t' ->
  Reachable build_mesh t'.
Proof.
  induction points as [|point points IH]; intros fuel t t' Hr; simpl.
  - by intros [= <-].
  - destruct (addPoint fuel point t) as [[[] t1]|] eqn:Hadd; [|done].
    apply IH. apply (Reachable_call _ t fuel (CallAddPoint point)); [done|].
    simpl. by rewrite Hadd.
Qed.

(** On a leaf the points are appended to the buffer, and the size is the
    length of the buffer converted to [int]. *)
Lemma addPoints_leaf points : forall fuel t t',
  depth_ t = 0 -> addPoints fuel points t = Some t' ->
  depth_ t' = 0 /\ points_ t' = points_ t ++ points.
Proof.
  induction points as [|point points IH]; intros fuel t t' Hd; cbn [addPoints].
  - intros [= <-]. by rewrite app_nil_r.
  - destruct fuel as [|fuel]; [done|]. cbn [addPoint].
    unfold bind, gets, modify. rewrite Hd. cbn [Z.eqb].
    intros Hrun. apply IH in Hrun as [Hd' Hpts]; [|done].
    split; [done|]. rewrite Hpts. cbn [points_ set_points].
    by rewrite <- app_assoc.
Qed.

Lemma getSize_leaf fuel t :
  depth_ t = 0 ->
  getSize (S fuel) t = Some (int_of_size (length (points_ t)), t).
Proof.
  intros Hd. cbn [getSize]. unfold bind, gets, ret. by rewrite Hd.
Qed.

(** No insertion returns on a root built with a negative depth. *)
Lemma addPoint_negative_root position range depth point fuel :
  in_int depth = true -> depth < 0 ->
  addPoint fuel point (new_ReconstructionOcTree position range depth) = None.
Proof.
  intros Hint Hd. apply addPoint_negative; [by apply wf_new|done].
Qed.

End Runs.

Import Sample.

Lemma root_reachable : Reachable points_as_mesh root.
Proof. by apply Reachable_new. Qed.

Lemma root1_reachable : Reachable points_as_mesh root1.
Proof. by apply Reachable_new. Qed.

Lemma negative_root_reachable : Reachable points_as_mesh negative_root.
Proof. by apply Reachable_new. Qed.

Lemma filled_run : addPoints 3 scenario root = Some filled.
Proof. vm_compute. reflexivity. Qed.

Lemma grown_reachable : Reachable points_as_mesh grown.
Proof.
  apply (Reachable_call _ filled 3 CallReconstruct).
  - apply (Reachable_addPoints _ scenario 3 root); [apply root_reachable|].
    apply filled_run.
  - vm_compute. reflexivity.
Qed.

(** The scenario of section 8 of the specification, with enough fuel. *)
Lemma scenario_run fuel :
  (2 < fuel)%nat ->
  addPoints fuel scenario root = Some filled /\
  getSize fuel filled = Some (3, filled) /\
  getClusterCount fuel filled = Some (3, filled) /\
  getPoints fuel (point 1 1 1) filled = Some ([point 1 1 1], filled) /\
  getPoints fuel (point 7 7 7) filled = Some ([point 7 7 7], filled).
Proof.
  intros Hfuel. assert (3 <= fuel)%nat as Hle by lia.
  split; [apply (addPoints_fuel_le _ 3); [done|apply filled_run]|].
  split; [apply (fuel_le _ getSize_fuel_S 3); [done|by vm_compute]|].
  split; [apply (fuel_le _ getClusterCount_fuel_S 3); [done|by vm_compute]|].
  split; apply (fuel_le _ (getPoints_fuel_S _) 3); done || by vm_compute.
Qed.

(** C1.  At the threshold the two computations disagree.  For the root at
    origin (0,0,0) with range 8 and the point (4,1,1), whose x equals
    origin.x + half range, [getChildIndex] answers 4 (high half in x) while
    the [childPosition] of [initChild] is (0,0,0), the low half in x: the
    low corner of octant 4 is (4,0,0).  Moreover the constructor does not
    store the position it is given: after [addPoint (7,7,7)] the child in
    slot 7, whose octant has the low corner (4,4,4), has [position_]
    (0,0,0). *)
Theorem child_origin_at_threshold :
  getChildIndex (point 4 1 1) root1 = Some (4%nat, root1) /\
  childPosition (position_ root1) (halfRange_ root1) (point 4 1 1)
    = point 0 0 0 /\
  octant_origin (position_ root1) (halfRange_ root1) 4 = point 4 0 0 /\
  childPosition (position_ root1) (halfRange_ root1) (point 4 1 1)
    <> octant_origin (position_ root1) (halfRange_ root1) 4 /\
  exists t' child,
    addPoint 2 (point 7 7 7) root1 = Some (tt, t') /\
    slot t' 7 = Some child /\
    childPosition (position_ root1) (halfRange_ root1) (point 7 7 7)
      = point 4 4 4 /\
    octant_origin (position_ root1) (halfRange_ root1) 7 = point 4 4 4 /\
    position_ child = point 0 0 0.
Proof.
  split; [by vm_compute|]. split; [by vm_compute|]. split; [by vm_compute|].
  split.
  { intros Heq.
    apply (f_equal (fun v : @vec3 binary64 =>
                      PrimFloat.ltb 1 (@vx binary64 v : float))) in Heq.
    by vm_compute in Heq. }
  eexists. eexists. split; [by vm_compute|].
  split; [by vm_compute|]. split; [by vm_compute|].
  split; by vm_compute.
Qed.

(** C2, as amended.  For the root at origin (0,0,0) with range 8 and depth
    2, after the insertion of (1,1,1), (7,7,7) and (1,1,7) in this order,
    [getSize] returns 3, [getClusterCount] returns 3, [getPoints (1,1,1)]
    returns [(1,1,1)] alone and [getPoints (7,7,7)] returns [(7,7,7)]
    alone. *)
Theorem concrete_scenario fuel :
  (2 < fuel)%nat ->
  exists t,
    addPoints fuel scenario root = Some t /\
    getSize fuel t = Some (3, t) /\
    getClusterCount fuel t = Some (3, t) /\
    getPoints fuel (point 1 1 1) t = Some ([point 1 1 1], t) /\
    getPoints fuel (point 7 7 7) t = Some ([point 7 7 7], t).
Proof. intros Hfuel. exists filled. by apply scenario_run. Qed.

Lemma concrete_scenario_witness :
  (2 < 3)%nat /\
  exists t,
    addPoints 3 scenario root = Some t /\
    getSize 3 t = Some (3, t) /\
    getClusterCount 3 t = Some (3, t) /\
    getPoints 3 (point 1 1 1) t = Some ([point 1 1 1], t) /\
    getPoints 3 (point 7 7 7) t = Some ([point 7 7 7], t).
Proof. split; [lia|apply (concrete_scenario 3); lia]. Defined.

(** C2 as stated fails: with no amount of fuel does [getClusterCount]
    return 2 after the three insertions. *)
Lemma scenario_cluster_count_is_not_2 :
  ~ exists fuel t t',
      addPoints fuel scenario root = Some t /\
      getClusterCount fuel t = Some (2, t').
Proof.
  intros (fuel & t & t' & Hrun & Hcount).
  destruct (decide (2 < fuel)%nat) as [Hfuel|Hfuel].
  - destruct (scenario_run fuel Hfuel) as (Hrun' & _ & Hcount' & _).
    congruence.
  - destruct fuel as [|[|[|fuel]]]; [by vm_compute in Hrun..|lia].
Qed.

(** After the insertion of 2^31 points into a root of depth 0, [getSize]
    does not return 2^31, which is no [int]. *)
Lemma size_of_full_leaf (N : nat) :
  Z.of_nat N = 2 ^ 31 ->
  ~ exists fuel t t',
      addPoints fuel (replicate N (point 1 1 1)) leaf_root = Some t /\
      getSize fuel t = Some (2 ^ 31, t').
Proof.
  intros HN (fuel & t & t' & Hrun & Hsize).
  apply addPoints_leaf in Hrun as [Hd Hpts]; [|reflexivity].
  destruct fuel as [|fuel]; [discriminate Hsize|].
  rewrite (getSize_leaf _ _ Hd), Hpts in Hsize.
  change (points_ leaf_root) with (@nil (@vec3 binary64)) in Hsize.
  rewrite app_nil_l, length_replicate in Hsize.
  unfold int_of_size in Hsize. rewrite HN in Hsize.
  injection Hsize as Hv _. discriminate Hv.
Qed.

(** C3 as stated fails.  On a root built with depth -1 the insertion of a
    point never returns, whatever the fuel, so that [getSize] is never
    reached.  And on a root of depth 0, after the insertion of 2^31 points,
    [getSize] does not return 2^31. *)
Lemma size_differs_from_insertions :
  (~ exists fuel t t',
       addPoints fuel [point 1 1 1] negative_root = Some t /\
       getSize fuel t = Some (1, t')) /\
  (~ exists fuel t t',
       addPoints fuel (replicate (Z.to_nat (2 ^ 31)) (point 1 1 1)) leaf_root
         = Some t /\
       getSize fuel t = Some (2 ^ 31, t')).
Proof.
  split.
  - intros (fuel & t & t' & Hrun & _). cbn [addPoints] in Hrun.
    unfold negative_root in Hrun.
    by rewrite addPoint_negative_root in Hrun.
  - apply (size_of_full_leaf (Z.to_nat (2 ^ 31))).
    apply Z2Nat.id, Z.pow_nonneg. lia.
Qed.

Lemma size_counts_insertions_witness :
  exists t,
    addPoints 3 scenario root = Some t /\ getSize 3 t = Some (3, t).
Proof.
  apply (size_counts_insertions (point 0 0 0) 8%float 2 scenario 3);
    [reflexivity|left; lia|lia|by vm_compute].
Defined.

(** C4 as stated fails: a root of depth 0 into which nothing was inserted
    counts as one cluster, although no leaf has received a point. *)
Lemma empty_leaf_root_is_a_cluster :
  ~ exists fuel t t',
      addPoints fuel [] leaf_root = Some t /\
      getClusterCount fuel t = Some (Z.of_nat (leaves_with_points t), t').
Proof.
  intros (fuel & t & t' & Hrun & Hcount). injection Hrun as <-.
  destruct fuel as [|fuel]; by vm_compute in Hcount.
Qed.

Lemma cluster_count_counts_leaves_witness :
  (exists t,
      addPoints 3 scenario root = Some t /\
      getClusterCount 3 t = Some (Z.of_nat (leaves_with_points t), t)) /\
  (exists t,
      addPoints 1 [] leaf_root = Some t /\
      getClusterCount 1 t = Some (1, t)).
Proof.
  split.
  - destruct (cluster_count_counts_leaves (point 0 0 0) 8%float 2 scenario 3)
      as (t & Hrun & _ & Hcount); [reflexivity|left; lia|lia|].
    exists t. split; [done|]. apply Hcount; [done|].
    assert (Some t = Some filled) as [= ->]
      by (rewrite <- Hrun; apply filled_run).
    by vm_compute.
  - destruct (cluster_count_counts_leaves (point 0 0 0) 8%float 0 [] 1)
      as (t & Hrun & Hone & _); [reflexivity|by right|lia|].
    exists t. split; [done|]. by apply Hone.
Defined.

(** C5 as stated fails: the root built with depth -1 is a state of a root,
    and [addPoint] does not return on it, whatever the fuel. *)
Lemma no_round_trip_at_negative_depth :
  Reachable points_as_mesh negative_root /\
  ~ exists fuel t' pts t'',
      addPoint fuel (point 7 7 7) negative_root = Some (tt, t') /\
      getPoints fuel (point 7 7 7) t' = Some (pts, t'') /\
      In (point 7 7 7) pts.
Proof.
  split; [apply negative_root_reachable|].
  intros (fuel & t' & pts & t'' & Hadd & _). unfold negative_root in Hadd.
  by rewrite addPoint_negative_root in Hadd.
Qed.

Lemma points_near_after_insert_witness :
  exists t' pts,
    addPoint 3 (point 1 1 7) filled = Some (tt, t') /\
    getPoints 3 (point 1 1 7) t' = Some (pts, t') /\
    In (point 1 1 7) pts.
Proof.
  apply (points_near_after_insert points_as_mesh filled (point 1 1 7) 3).
  - apply (Reachable_addPoints _ scenario 3 root);
      [apply root_reachable|apply filled_run].
  - by vm_compute.
  - vm_compute. lia.
Defined.

(** C6 as stated fails: on the root built with depth -1, a state of a
    root, [addPoint] returns for no point, whatever the fuel. *)
Lemma no_insertion_at_negative_depth :
  Reachable points_as_mesh negative_root /\
  ~ exists fuel t',
      addPoint fuel (point 9 9 9) negative_root = Some (tt, t').
Proof.
  split; [apply negative_root_reachable|].
  intros (fuel & t' & Hadd). unfold negative_root in Hadd.
  by rewrite addPoint_negative_root in Hadd.
Qed.

(** The point (100,-5,3) lies outside the cube of the root. *)
Lemma insert_accepts_every_point_witness :
  (exists index,
      getChildIndex (point 100 (-5) 3) filled = Some (index, filled) /\
      (index <= 7)%nat) /\
  exists t' path leaf,
    addPoint 3 (point 100 (-5) 3) filled = Some (tt, t') /\
    node_at path t' = Some leaf /\
    depth_ leaf = 0 /\
    points_ leaf = points_at path filled ++ [point 100 (-5) 3].
Proof.
  apply (insert_accepts_every_point points_as_mesh filled
           (point 100 (-5) 3) 3).
  - apply (Reachable_addPoints _ scenario 3 root);
      [apply root_reachable|apply filled_run].
  - by vm_compute.
  - vm_compute. lia.
Defined.

Lemma points_near_absent_slot_witness :
  getPoints 1 (point 1 7 1) grown = Some ([], grown).
Proof.
  apply (points_near_absent_slot points_as_mesh grown (point 1 7 1) 2 0).
  - apply Reachable_InTree, grown_reachable.
  - by vm_compute.
  - by vm_compute.
  - by vm_compute.
Defined.

Lemma collect_mesh_concatenates_children_witness :
  exists meshes,
    Forall2 (child_mesh 2 grown) octants meshes /\
    getMesh 3 grown = Some (concat meshes, grown).
Proof.
  apply (collect_mesh_concatenates_children points_as_mesh grown 2).
  - apply Reachable_InTree, grown_reachable.
  - by vm_compute.
  - vm_compute. lia.
Defined.

Lemma collect_mesh_twice_witness :
  exists mesh t1 t2,
    getMesh 3 grown = Some (mesh, t1) /\ getMesh 3 t1 = Some (mesh, t2).
Proof.
  apply (collect_mesh_twice points_as_mesh grown 3).
  - apply Reachable_InTree, grown_reachable.
  - vm_compute. lia.
Defined.

Lemma queries_leave_tree_unchanged_witness :
  (exists pts, getPoints 3 (point 7 7 7) grown = Some (pts, grown)) /\
  (exists mesh, getMesh 3 grown = Some (mesh, grown)) /\
  (forall v t', getSize 3 grown = Some (v, t') -> t' = grown) /\
  (Z.of_nat (stored_points grown) <= INT_MAX ->
   exists v, getSize 3 grown = Some (v, grown)) /\
  (forall v t', getClusterCount 3 grown = Some (v, t') -> t' = grown) /\
  (Z.of_nat (length (leaves grown)) <= INT_MAX ->
   exists v, getClusterCount 3 grown = Some (v, grown)).
Proof.
  apply (queries_leave_tree_unchanged points_as_mesh grown (point 7 7 7) 3).
  - apply Reachable_InTree, grown_reachable.
  - vm_compute. lia.
Defined.

(** * Beyond the queries: reconstruction, routing and histories *)

Section Reconstruction.

Context `{Scalar}.
Variable build_mesh : list vec3 -> list vec3.

Implicit Types (t child : ReconstructionOcTree) (fuel n i : nat).

Lemma reconstructed_children_absent after t range :
  (forall i, slot t i = None) ->
  forall cs, reconstructed_children after t range cs = cs.
Proof.
  intros Hnone. unfold reconstructed_children.
  induction range as [|i range IH]; intros cs; simpl; [done|].
  by rewrite Hnone.
Qed.

Lemma length_reconstructed_children after t range : forall cs,
  length (reconstructed_children after t range cs) = length cs.
Proof.
  unfold reconstructed_children.
  induction range as [|i range IH]; intros cs; simpl; [done|].
  rewrite IH. destruct (slot t i); [apply length_insert|done].
Qed.

Lemma lookup_reconstructed_children after t range : forall cs j,
  NoDup range -> (j < length cs)%nat ->
  reconstructed_children after t range cs !! j =
  match slot t j with
  | Some child => if decide (j ∈ range) then Some (Some (after child))
                  else cs !! j
  | None => cs !! j
  end.
Proof.
  unfold reconstructed_children.
  induction range as [|i range IH]; intros cs j Hnd Hj; cbn [foldl].
  - destruct (slot t j); [|done].
    case_decide as Hin; [by apply elem_of_nil in Hin|done].
  - apply NoDup_cons in Hnd as [Hi Hnd].
    rewrite IH by (done || destruct (slot t i); by rewrite ?length_insert).
    destruct (decide (i = j)) as [<-|Hij].
    + destruct (slot t i) as [c|] eqn:Hc; [|done].
      rewrite decide_False by done.
      rewrite decide_True by (by apply elem_of_cons; left).
      by rewrite list_lookup_insert_eq.
    + assert ((match slot t i with
               | Some child => <[i:=Some (after child)]> cs
               | None => cs
               end) !! j = cs !! j) as Hsame.
      { destruct (slot t i); [|done]. by rewrite list_lookup_insert_ne. }
      rewrite Hsame. destruct (slot t j) as [c|]; [|done].
      destruct (decide (j ∈ range)) as [Hin|Hin].
      * by rewrite decide_True by (by apply elem_of_cons; right).
      * rewrite decide_False; [done|].
        intros [->|?]%elem_of_cons; done.
Qed.

(** The loop of [reconstruct], started with the children [cs]. *)
Lemma reconstruct_loop fuel after n t range :
  wf n t ->
  (forall i c, slot t i = Some c ->
     reconstruct build_mesh fuel c = Some (tt, after c)) ->
  NoDup range -> (forall i, i ∈ range -> (i < 8)%nat) ->
  forall cs,
    length cs = 8%nat ->
    (forall j, j ∈ range -> cs !! j = children_ t !! j) ->
    for_each
      (fun (_ : unit) i =>
         a <- is_available i ;;
         if a : bool then on_child i (reconstruct build_mesh fuel)
         else ret tt)
      tt range (set_children cs t) =
    Some (tt, set_children (reconstructed_children after t range cs) t).
Proof.
  intros Hwf Hafter. unfold reconstructed_children.
  induction range as [|i range IH]; intros Hnd Hlt cs Hlen Hcs; simpl;
    [done|].
  apply NoDup_cons in Hnd as [Hi Hnd].
  destruct (wf_arrays _ _ Hwf) as [_ Hav].
  assert (i < 8)%nat as Hi8 by (apply Hlt; by apply elem_of_cons; left).
  destruct (lookup_lt_is_Some_2 (is_available_ t) i) as [b Hb]; [lia|].
  unfold bind at 1. unfold bind at 1.
  rewrite (is_available_lookup i (set_children cs t) b) by done.
  destruct b.
  - destruct (wf_available _ _ _ Hwf Hb) as [c Hc]. rewrite Hc.
    pose proof Hc as Hc'. apply slot_Some in Hc' as [_ Hch].
    unfold on_child. cbn [children_ set_children].
    rewrite (Hcs i) by (by apply elem_of_cons; left).
    rewrite Hch, (Hafter _ _ Hc).
    change (set_children (<[i:=Some (after c)]> cs) (set_children cs t))
      with (set_children (<[i:=Some (after c)]> cs) t).
    apply IH; try done.
    + intros j Hj. apply Hlt. by apply elem_of_cons; right.
    + by rewrite length_insert.
    + intros j Hj. rewrite list_lookup_insert_ne by (intros ->; done).
      apply Hcs. by apply elem_of_cons; right.
  - assert (slot t i = None) as -> by (unfold slot; by rewrite Hb).
    unfold ret. apply IH; try done.
    + intros j Hj. apply Hlt. by apply elem_of_cons; right.
    + intros j Hj. apply Hcs. by apply elem_of_cons; right.
Qed.

(** [reconstruct] returns on every well-formed tree, with the tree
    [reconstructed]. *)
Lemma reconstruct_reconstructed fuel : forall n t,
  wf n t -> (n < fuel)%nat ->
  reconstruct build_mesh fuel t = Some (tt, reconstructed build_mesh n t).
Proof.
  induction fuel as [|fuel IH]; intros n t Hwf Hlt; [lia|].
  cbn [reconstruct]. unfold bind at 1. unfold gets.
  destruct (depth_ t =? 0) eqn:Hd.
  - apply Z.eqb_eq in Hd. destruct (wf_leaf _ _ Hwf Hd) as [r Hr].
    assert (reconstructed build_mesh n t = reconstructed_leaf build_mesh t)
      as ->.
    { destruct n; cbn [reconstructed]; by rewrite Hd. }
    unfold bind, gets, lift, modify, reconstructed_leaf. by rewrite Hr.
  - destruct (wf_arrays _ _ Hwf) as [Hcs _].
    assert (forall i, i ∈ octants -> (i < 8)%nat) as Hoct.
    { intros i Hi. apply elem_of_seq in Hi. lia. }
    destruct n as [|n].
    + assert (forall i c, slot t i = Some c ->
                reconstruct build_mesh fuel c = Some (tt, id c)) as Hafter.
      { intros i c Hc. by rewrite wf_O_slot in Hc. }
      pose proof (reconstruct_loop fuel id 0 t octants Hwf Hafter
                    (NoDup_seq 0 8) Hoct (children_ t) Hcs
                    (fun _ _ => eq_refl)) as Hloop.
      rewrite set_children_id in Hloop. rewrite Hloop.
      rewrite reconstructed_children_absent
        by (intros i; by apply wf_O_slot).
      cbn [reconstructed]. rewrite Hd. by rewrite set_children_id.
    + assert (forall i c, slot t i = Some c ->
                reconstruct build_mesh fuel c =
                Some (tt, reconstructed build_mesh n c)) as Hafter.
      { intros i c Hc. destruct (wf_S_slot _ _ _ _ Hwf Hc) as (_ & Hwfc & _).
        apply IH; [done|lia]. }
      pose proof (reconstruct_loop fuel (reconstructed build_mesh n) (S n) t
                    octants Hwf Hafter (NoDup_seq 0 8) Hoct (children_ t) Hcs
                    (fun _ _ => eq_refl)) as Hloop.
      rewrite set_children_id in Hloop. rewrite Hloop.
      cbn [reconstructed]. by rewrite Hd.
Qed.

End Reconstruction.

Section Histories.

Context `{Scalar}.
Variable build_mesh : list vec3 -> list vec3.

Implicit Types (t child : ReconstructionOcTree) (fuel n i : nat).
Implicit Types (point location : vec3) (points : list vec3).

(** ** The tree after [reconstruct] *)

Lemma reconstructed_leaf_fields t :
  depth_ (reconstructed_leaf build_mesh t) = depth_ t /\
  position_ (reconstructed_leaf build_mesh t) = position_ t /\
  range_ (reconstructed_leaf build_mesh t) = range_ t /\
  halfRange_ (reconstructed_leaf build_mesh t) = halfRange_ t /\
  points_ (reconstructed_leaf build_mesh t) = points_ t /\
  is_available_ (reconstructed_leaf build_mesh t) = is_available_ t /\
  children_ (reconstructed_leaf build_mesh t) = children_ t.
Proof. unfold reconstructed_leaf. by destruct (reconstructor t). Qed.

Lemma reconstructed_fields n t :
  depth_ (reconstructed build_mesh n t) = depth_ t /\
  position_ (reconstructed build_mesh n t) = position_ t /\
  range_ (reconstructed build_mesh n t) = range_ t /\
  halfRange_ (reconstructed build_mesh n t) = halfRange_ t /\
  points_ (reconstructed build_mesh n t) = points_ t /\
  is_available_ (reconstructed build_mesh n t) = is_available_ t.
Proof.
  destruct (reconstructed_leaf_fields t) as (? & ? & ? & ? & ? & ? & _).
  destruct n; cbn [reconstructed]; by destruct (depth_ t =? 0).
Qed.

Lemma reconstructed_wf n t :
  wf n t -> wf n (reconstructed build_mesh n t).
Proof.
  intros Hwf.
  pose proof (reconstruct_reconstructed build_mesh (S n) n t Hwf) as Hr.
  by destruct (reconstruct_wf build_mesh _ _ _ _ Hwf (Hr ltac:(lia))).
Qed.

Lemma slot_reconstructed n t i :
  wf (S n) t -> depth_ t <> 0 ->
  slot (reconstructed build_mesh (S n) t) i =
  reconstructed build_mesh n <$> slot t i.
Proof.
  intros Hwf Hd. destruct (wf_arrays _ _ Hwf) as [Hcs Hav].
  cbn [reconstructed]. apply Z.eqb_neq in Hd as ->.
  unfold slot at 1. cbn [is_available_ children_ set_children].
  destruct (is_available_ t !! i) as [b|] eqn:Hb.
  - assert (i < 8)%nat as Hi by (apply lookup_lt_Some in Hb; lia).
    rewrite lookup_reconstructed_children by (apply NoDup_seq || lia).
    destruct b.
    + destruct (wf_available _ _ _ Hwf Hb) as [c Hc]. rewrite Hc. simpl.
      rewrite decide_True; [done|]. apply elem_of_seq. lia.
    + assert (slot t i = None) as -> by (unfold slot; by rewrite Hb). done.
  - assert (slot t i = None) as -> by (unfold slot; by rewrite Hb). done.
Qed.

Lemma leaves_hollow t :
  wf 0 t -> depth_ t <> 0 -> leaves t = [].
Proof.
  intros Hwf Hd. rewrite (leaves_at_slots 0) by done.
  assert (forall range : list nat,
            concat (at_slot t leaves [] <$> range) = []) as Hnil.
  { induction range as [|i range IH]; csimpl; [done|].
    unfold at_slot at 1. by rewrite (wf_O_slot _ _ Hwf), IH. }
  apply Hnil.
Qed.

Lemma fmap_concat_slots {B C} (f : B -> C) (g : nat -> list B)
    (range : list nat) :
  f <$> concat (g <$> range) = concat ((fun i => f <$> g i) <$> range).
Proof.
  induction range as [|i range IH]; csimpl; [done|].
  by rewrite fmap_app, IH.
Qed.

(** [reconstruct] acts on the leaves, and only there. *)
Lemma leaves_reconstructed n : forall t,
  wf n t ->
  leaves (reconstructed build_mesh n t) =
  reconstructed_leaf build_mesh <$> leaves t.
Proof.
  induction n as [|n IH]; intros t Hwf.
  - cbn [reconstructed]. destruct (depth_ t =? 0) eqn:Hd.
    + apply Z.eqb_eq in Hd. rewrite !leaves_leaf; [done|done|].
      by destruct (reconstructed_leaf_fields t) as (-> & _).
    + apply Z.eqb_neq in Hd. by rewrite leaves_hollow.
  - destruct (decide (depth_ t = 0)) as [Hd|Hd].
    + cbn [reconstructed]. rewrite Hd. cbn [Z.eqb].
      rewrite !leaves_leaf; [done|done|].
      by destruct (reconstructed_leaf_fields t) as (-> & _).
    + pose proof (reconstructed_wf _ _ Hwf) as Hwf'.
      destruct (reconstructed_fields (S n) t) as (Hd' & _).
      rewrite (leaves_at_slots (S n) (reconstructed _ _ _))
        by (done || congruence).
      rewrite (leaves_at_slots (S n) t) by done.
      rewrite fmap_concat_slots. f_equal.
      apply list_fmap_ext. intros _ i _. unfold at_slot.
      rewrite slot_reconstructed by done.
      destruct (slot t i) as [c|] eqn:Hc; [|done]. simpl.
      destruct (wf_S_slot _ _ _ _ Hwf Hc) as (_ & Hwfc & _). by apply IH.
Qed.

Lemma elem_of_concat {B} (x : B) (ls : list (list B)) :
  x ∈ concat ls -> exists l, x ∈ l /\ l ∈ ls.
Proof.
  induction ls as [|l ls IH]; simpl.
  - by intros ?%elem_of_nil.
  - intros [Hx|Hx]%elem_of_app.
    + exists l. split; [done|by apply elem_of_cons; left].
    + destruct (IH Hx) as (l' & ? & ?). exists l'.
      split; [done|by apply elem_of_cons; right].
Qed.

Lemma leaves_are_leaves n : forall t leaf,
  wf n t -> leaf ∈ leaves t ->
  depth_ leaf = 0 /\ is_Some (reconstructor leaf).
Proof.
  induction n as [|n IH]; intros t leaf Hwf Hin;
    (destruct (decide (depth_ t = 0)) as [Hd|Hd];
     [ rewrite leaves_leaf in Hin by done;
       apply list_elem_of_singleton in Hin as ->;
       split; [done|by eapply wf_leaf] | ]).
  - by rewrite leaves_hollow in Hin by done; apply elem_of_nil in Hin.
  - rewrite (leaves_at_slots (S n)) in Hin by done.
    apply elem_of_concat in Hin as (l & Hleaf & Hl).
    apply list_elem_of_fmap in Hl as (i & -> & _). unfold at_slot in Hleaf.
    destruct (slot t i) as [c|] eqn:Hc; [|by apply elem_of_nil in Hleaf].
    destruct (wf_S_slot _ _ _ _ Hwf Hc) as (_ & Hwfc & _). by eapply IH.
Qed.

Lemma stored_points_reconstructed n t :
  wf n t ->
  stored_points (reconstructed build_mesh n t) = stored_points t /\
  length (leaves (reconstructed build_mesh n t)) = length (leaves t).
Proof.
  intros Hwf. unfold stored_points. rewrite leaves_reconstructed by done.
  split; [|by rewrite length_fmap].
  induction (leaves t) as [|l ls IH]; csimpl; [done|].
  destruct (reconstructed_leaf_fields l) as (_ & _ & _ & _ & -> & _).
  by rewrite IH.
Qed.

(** ** What a tree stores *)

Lemma holds_fields n range t points :
  holds n range t points ->
  position_ t = vec3_default /\ range_ t = range /\
  halfRange_ t = s_half range.
Proof. destruct n; simpl; tauto. Qed.

Lemma holds_new n position range depth :
  holds n range (new_ReconstructionOcTree position range depth) [].
Proof.
  revert range. induction n as [|n IH]; intros range; simpl;
    repeat split; try done.
  intros i. by rewrite slot_new.
Qed.

Lemma filter_filter {B} (f g : B -> bool) (l : list B) :
  List.filter f (List.filter g l) = List.filter (fun x => g x && f x) l.
Proof.
  induction l as [|x l IH]; simpl; [done|].
  destruct (g x); simpl; [|done]. destruct (f x); by rewrite IH.
Qed.

Lemma same_route_S n range location point :
  same_route (S n) range location point =
  routed_to (octant_of vec3_default (s_half range) location) range point
  && same_route n (s_half range) location point.
Proof.
  unfold same_route, routed_to. cbn [route].
  destruct (Nat.eqb_spec (octant_of vec3_default (s_half range) point)
              (octant_of vec3_default (s_half range) location)) as [Heq|Hne].
  - rewrite Heq. cbn [andb]. apply bool_decide_ext. split.
    + by intros [= ->].
    + by intros ->.
  - cbn [andb]. apply bool_decide_eq_false. by intros [= ? _].
Qed.

Lemma routed_to_other i j range point :
  routed_to i range point = true -> i <> j -> routed_to j range point = false.
Proof.
  unfold routed_to. intros ->%Nat.eqb_eq Hij. by apply Nat.eqb_neq.
Qed.

Lemma inserted_range n point t : range_ (inserted n point t) = range_ t.
Proof. by destruct n. Qed.

Lemma holds_inserted point n : forall t range points,
  wf n t -> depth_ t = Z.of_nat n -> holds n range t points ->
  holds n range (inserted n point t) (points ++ [point]).
Proof.
  induction n as [|n IH]; intros t range points Hwf Hd Hholds.
  - destruct Hholds as (? & ? & ? & Hpts). repeat split; try done.
    simpl. by rewrite Hpts.
  - destruct (wf_child_for n point t Hwf Hd) as [Hwfc Hdc].
    destruct (wf_arrays _ _ Hwf) as [Hcs Hav].
    pose proof (octant_of_lt (position_ t) (halfRange_ t) point) as Hi.
    destruct Hholds as (Hpos & Hr & Hh & Hslots).
    split; [done|]. split; [done|]. split; [done|].
    intros i. cbn [inserted]. rewrite with_child_slot by lia.
    rewrite List.filter_app. cbn [List.filter].
    assert (routed_to (octant_of (position_ t) (halfRange_ t) point) range
              point = true) as Hrouted.
    { unfold routed_to. rewrite Hpos, Hh. apply Nat.eqb_refl. }
    case_decide as Hi0.
    + subst i. rewrite Hrouted. apply IH; try done.
      specialize (Hslots (octant_of (position_ t) (halfRange_ t) point)).
      unfold child_for.
      destruct (slot t _) as [c|]; [done|]. rewrite Hslots, Hh.
      apply holds_new.
    + rewrite (routed_to_other _ _ _ _ Hrouted Hi0), app_nil_r.
      apply Hslots.
Qed.

Lemma holds_reconstructed n : forall t range points,
  wf n t -> depth_ t = Z.of_nat n -> holds n range t points ->
  holds n range (reconstructed build_mesh n t) points.
Proof.
  induction n as [|n IH]; intros t range points Hwf Hd Hholds.
  - destruct Hholds as (? & ? & ? & Hpts). cbn [holds].
    destruct (reconstructed_fields 0 t) as (_ & -> & -> & -> & -> & _).
    by repeat split.
  - destruct Hholds as (Hpos & Hr & Hh & Hslots). cbn [holds].
    destruct (reconstructed_fields (S n) t) as (_ & -> & -> & -> & _).
    split; [done|]. split; [done|]. split; [done|].
    intros i. rewrite slot_reconstructed by (done || lia).
    specialize (Hslots i). destruct (slot t i) as [c|] eqn:Hc; [|done].
    simpl. destruct (wf_S_slot _ _ _ _ Hwf Hc) as (Hdc & Hwfc & _).
    apply IH; [done|lia|done].
Qed.

(** [getPoints] returns the stored points that share the route of the
    location, in their order. *)
Lemma getPoints_holds location fuel : forall n t range points,
  wf n t -> depth_ t = Z.of_nat n -> holds n range t points ->
  (n < fuel)%nat ->
  getPoints fuel location t =
  Some (List.filter (same_route n range location) points, t).
Proof.
  induction fuel as [|fuel IH]; intros n t range points Hwf Hd Hholds Hlt;
    [lia|].
  cbn [getPoints]. unfold bind. rewrite getChildIndex_eq. unfold gets.
  destruct n as [|n].
  - change (Z.of_nat 0) with 0 in Hd. rewrite Hd.
    change (0 =? 0) with true. cbv beta iota.
    destruct Hholds as (_ & _ & _ & <-). do 2 f_equal. induction (points_ t) as [|p ps IHps]; [done|].
    simpl. by rewrite <- IHps.
  - replace (depth_ t =? 0) with false by (symmetry; apply Z.eqb_neq; lia).
    destruct Hholds as (Hpos & Hr & Hh & Hslots). rewrite Hpos, Hh.
    set (i := octant_of vec3_default (s_half range) location).
    specialize (Hslots i).
    assert (List.filter (same_route (S n) range location) points =
            List.filter (same_route n (s_half range) location)
              (List.filter (routed_to i range) points)) as ->.
    { rewrite filter_filter. apply List.filter_ext. intros p.
      apply same_route_S. }
    destruct (wf_arrays _ _ Hwf) as [_ Hav].
    pose proof (octant_of_lt vec3_default (s_half range) location) as Hi.
    fold i in Hi.
    destruct (lookup_lt_is_Some_2 (is_available_ t) i) as [b Hb]; [lia|].
    rewrite (is_available_lookup _ _ _ Hb). destruct b; cbn [negb].
    + destruct (wf_S_available _ _ _ Hwf Hb) as (c & Hc & Hdc & Hwfc & _).
      rewrite Hc in Hslots.
      apply (on_child_unchanged _ _ _ c); [by apply slot_Some in Hc as [_ ?]|].
      apply (IH n); [done|lia|done|lia].
    + assert (slot t i = None) as Hnone by (unfold slot; by rewrite Hb).
      rewrite Hnone in Hslots. rewrite Hslots.
      by rewrite (wf_internal _ _ Hwf) by lia.
Qed.

(** ** Every call, from every state *)

Lemma exec_cases t fuel c t' :
  wf (Z.to_nat (depth_ t)) t ->
  exec build_mesh fuel c t = Some t' ->
  match c with
  | CallAddPoint point =>
      0 <= depth_ t /\ t' = inserted (Z.to_nat (depth_ t)) point t
  | CallReconstruct => t' = reconstructed build_mesh (Z.to_nat (depth_ t)) t
  | _ => t' = t
  end.
Proof.
  intros Hwf Hexec.
  destruct c as [point| | |location| |]; cbn [exec] in Hexec.
  - destruct (addPoint fuel point t) as [[[] t1]|] eqn:Hadd; [|done].
    injection Hexec as ->.
    destruct (Z.lt_ge_cases (depth_ t) 0) as [Hneg|Hpos].
    { rewrite addPoint_negative in Hadd; [done| |done].
      by replace (Z.to_nat (depth_ t)) with 0%nat in Hwf by lia. }
    split; [done|].
    apply (fuel_le _ (addPoint_fuel_S point) fuel
             (fuel + S (Z.to_nat (depth_ t)))) in Hadd; [|lia].
    rewrite (addPoint_inserted _ _ (Z.to_nat (depth_ t))) in Hadd
      by (done || lia).
    by injection Hadd as <-.
  - destruct (reconstruct build_mesh fuel t) as [[[] t1]|] eqn:Hr; [|done].
    injection Hexec as ->.
    apply (fuel_le _ (reconstruct_fuel_S build_mesh) fuel
             (fuel + S (Z.to_nat (depth_ t)))) in Hr; [|lia].
    rewrite (reconstruct_reconstructed _ _ (Z.to_nat (depth_ t))) in Hr
      by (done || lia).
    by injection Hr as <-.
  - destruct (getSize fuel t) as [[v t1]|] eqn:Hr; [|done].
    injection Hexec as ->. by apply getSize_frame in Hr as ->.
  - destruct (getPoints fuel location t) as [[v t1]|] eqn:Hr; [|done].
    injection Hexec as ->. by apply getPoints_frame in Hr as ->.
  - destruct (getClusterCount fuel t) as [[v t1]|] eqn:Hr; [|done].
    injection Hexec as ->. by apply getClusterCount_frame in Hr as ->.
  - destruct (getMesh fuel t) as [[v t1]|] eqn:Hr; [|done].
    injection Hexec as ->. by apply getMesh_frame in Hr as ->.
Qed.

Lemma History_Reachable t points :
  History build_mesh t points -> Reachable build_mesh t.
Proof.
  induction 1 as [|t points fuel c t' _ IH Hexec].
  - by apply Reachable_new.
  - by eapply Reachable_call.
Qed.

Lemma Reachable_History t :
  Reachable build_mesh t -> exists points, History build_mesh t points.
Proof.
  induction 1 as [position range depth Hd|t fuel c t' _ [points IH] Hexec].
  - eexists. by apply History_new.
  - eexists. by eapply History_call.
Qed.

Lemma reconstructed_hollow t :
  depth_ t <> 0 -> reconstructed build_mesh 0 t = t.
Proof. intros Hd. cbn [reconstructed]. by apply Z.eqb_neq in Hd as ->. Qed.

(** A state of a root stores the points of its history. *)
Lemma History_holds t points :
  History build_mesh t points ->
  holds (Z.to_nat (depth_ t)) (range_ t) t points /\
  stored_points t = length points.
Proof.
  induction 1 as [position range depth Hd|t points fuel c t' Hh [IHh IHs] Hexec].
  - split; [apply holds_new|apply stored_points_new].
  - pose proof (Reachable_wf _ _ (History_Reachable _ _ Hh)) as Hwf.
    pose proof (exec_cases _ _ _ _ Hwf Hexec) as Hcase.
    destruct c as [point| | |location| |]; cbn [inserted_by];
      rewrite ?app_nil_r; try (by subst t').
    + destruct Hcase as [Hpos ->].
      rewrite inserted_depth, inserted_range. split.
      * apply holds_inserted; [done|lia|done].
      * rewrite stored_points_inserted by (done || lia).
        rewrite length_app. simpl. lia.
    + subst t'.
      destruct (reconstructed_fields (Z.to_nat (depth_ t)) t)
        as (-> & _ & -> & _).
      split; [|by rewrite (proj1 (stored_points_reconstructed _ _ Hwf))].
      destruct (Z.lt_ge_cases (depth_ t) 0) as [Hneg|Hpos].
      * replace (Z.to_nat (depth_ t)) with 0%nat in * by lia.
        by rewrite reconstructed_hollow by lia.
      * apply holds_reconstructed; [done|lia|done].
Qed.

Lemma getSize_History t points fuel :
  History build_mesh t points ->
  (Z.to_nat (depth_ t) < fuel)%nat ->
  Z.of_nat (length points) <= INT_MAX ->
  getSize fuel t = Some (Z.of_nat (length points), t).
Proof.
  intros Hh Hfuel Hmax.
  pose proof (Reachable_wf _ _ (History_Reachable _ _ Hh)) as Hwf.
  destruct (History_holds _ _ Hh) as [_ Hs]. rewrite <- Hs.
  apply (getSize_wf fuel (Z.to_nat (depth_ t))); try done. by rewrite Hs.
Qed.

Lemma getPoints_History t points location fuel :
  History build_mesh t points ->
  (Z.to_nat (depth_ t) < fuel)%nat ->
  getPoints fuel location t =
  Some (List.filter (same_route (Z.to_nat (depth_ t)) (range_ t) location)
          points, t).
Proof.
  intros Hh Hfuel.
  pose proof (Reachable_wf _ _ (History_Reachable _ _ Hh)) as Hwf.
  destruct (History_holds _ _ Hh) as [Hholds _].
  destruct (Z.lt_ge_cases (depth_ t) 0) as [Hneg|Hpos].
  - replace (Z.to_nat (depth_ t)) with 0%nat in * by lia.
    destruct Hholds as (_ & _ & _ & <-).
    destruct (getPoints_wf fuel location 0 t Hwf Hfuel) as [pts Hpts].
    rewrite Hpts. do 2 f_equal.
    rewrite (wf_internal _ _ Hwf) by lia.
    destruct fuel as [|fuel]; [lia|]. cbn [getPoints] in Hpts.
    unfold bind in Hpts. rewrite getChildIndex_eq in Hpts.
    unfold gets in Hpts.
    replace (depth_ t =? 0) with false in Hpts
      by (symmetry; apply Z.eqb_neq; lia).
    destruct (is_available _ t) as [[b t1]|] eqn:Hb; [|done].
    pose proof (is_available_frame _ _ _ _ Hb) as ->.
    destruct b; cbn [negb] in Hpts.
    + unfold is_available, lift in Hb.
      destruct (is_available_ t !! _) as [b'|] eqn:Hb'; [|done].
      injection Hb as ->.
      destruct (wf_available _ _ _ Hwf Hb') as [c Hc].
      by rewrite wf_O_slot in Hc.
    + injection Hpts as <-. by rewrite (wf_internal _ _ Hwf) by lia.
  - apply getPoints_holds; try done. lia.
Qed.

(** X1.  In every state of a root, whatever calls led to it, [getSize]
    returns the number of points inserted so far, when this number fits an
    [int]. *)
Theorem size_is_history_length t points fuel :
  History build_mesh t points ->
  (Z.to_nat (depth_ t) < fuel)%nat ->
  Z.of_nat (length points) <= INT_MAX ->
  getSize fuel t = Some (Z.of_nat (length points), t).
Proof. apply getSize_History. Qed.

(** X2.  In every state of a root, [getPoints location] returns, in the
    order of their insertion, exactly the inserted points that take the
    same route as the location: the same octant at every level, where a
    node of range r tests each coordinate against the default position
    plus r/2. *)
Theorem points_near_is_route_class t points location fuel :
  History build_mesh t points ->
  (Z.to_nat (depth_ t) < fuel)%nat ->
  getPoints fuel location t =
  Some (List.filter (same_route (Z.to_nat (depth_ t)) (range_ t) location)
          points, t).
Proof. apply getPoints_History. Qed.

(** ** The nodes of a tree, again *)

Lemma holds_node_at path : forall n t range points node,
  wf n t -> holds n range t points -> node_at path t = Some node ->
  position_ node = vec3_default /\
  halfRange_ node = s_half (range_ node) /\
  range_ node = Nat.iter (length path) s_half range /\
  depth_ node = depth_ t - Z.of_nat (length path).
Proof.
  induction path as [|i path IH]; intros n t range points node Hwf Hholds;
    cbn [node_at].
  - intros [= <-]. destruct (holds_fields _ _ _ _ Hholds) as (? & Hr & Hh).
    repeat split; try done.
    + by rewrite Hh, Hr.
    + simpl. lia.
  - destruct (slot t i) as [c|] eqn:Hc; [|done]. intros Hnode.
    destruct n as [|n]; [by rewrite wf_O_slot in Hc|].
    destruct (wf_S_slot _ _ _ _ Hwf Hc) as (Hdc & Hwfc & _).
    destruct Hholds as (_ & _ & _ & Hslots). specialize (Hslots i).
    rewrite Hc in Hslots.
    destruct (IH _ _ _ _ _ Hwfc Hslots Hnode) as (? & ? & Hr & Hd).
    repeat split; try done.
    + rewrite Hr. cbn [length]. by rewrite Nat.iter_swap.
    + rewrite Hd, Hdc. cbn [length]. lia.
Qed.

(** X3.  Every node of every tree keeps the default position: the
    position handed to the constructor, also the one [initChild] computes,
    is never stored.  Its half range is half its range, its range is the
    range of the root halved once per level, and its depth is the depth of
    the root less its level. *)
Theorem node_geometry root path node :
  Reachable build_mesh root -> node_at path root = Some node ->
  position_ node = vec3_default /\
  halfRange_ node = s_half (range_ node) /\
  range_ node = Nat.iter (length path) s_half (range_ root) /\
  depth_ node = depth_ root - Z.of_nat (length path).
Proof.
  intros Hr Hnode. destruct (Reachable_History _ Hr) as [points Hh].
  destruct (History_holds _ _ Hh) as [Hholds _].
  eapply holds_node_at; [|done|done]. by apply Reachable_wf in Hr.
Qed.

(** X4.  Children exist only under nodes of positive depth.  A child is
    one level below its parent, the parent holds no points, and a
    materialised leaf owns a collaborator and has received at least one
    point. *)
Theorem materialised_child t i child :
  InTree build_mesh t -> slot t i = Some child ->
  0 < depth_ t /\
  depth_ child = depth_ t - 1 /\
  points_ t = [] /\
  InTree build_mesh child /\
  (depth_ child = 0 ->
   is_Some (reconstructor child) /\ points_ child <> []).
Proof.
  intros Ht Hc. pose proof (InTree_wf _ _ Ht) as Hwf.
  destruct (Z.to_nat (depth_ t)) as [|n] eqn:Hn.
  { by rewrite wf_O_slot in Hc. }
  destruct (wf_S_slot _ _ _ _ Hwf Hc) as (Hdc & Hwfc & Hne).
  split; [lia|]. split; [done|].
  split; [apply (wf_internal _ _ Hwf); lia|]. split.
  - destruct Ht as (root & path & Hroot & Hnode).
    exists root, (path ++ [i]). split; [done|].
    clear -Hnode Hc. revert root Hnode.
    induction path as [|j path IH]; intros root; cbn [node_at app].
    + intros [= ->]. by rewrite Hc.
    + destruct (slot root j); [apply IH|done].
  - intros Hleaf. split; [by eapply wf_leaf|by apply Hne].
Qed.

(** X5.  On a root built with a negative depth, and in every state of
    it, [addPoint] returns for no point and no amount of fuel: every level
    creates a child one level deeper and none is a leaf. *)
Theorem insert_diverges_below_zero t point fuel :
  Reachable build_mesh t -> depth_ t < 0 ->
  addPoint fuel point t = None.
Proof.
  intros Hr Hd. apply addPoint_negative; [|done].
  apply Reachable_wf in Hr.
  by replace (Z.to_nat (depth_ t)) with 0%nat in Hr by lia.
Qed.

(** ** Reconstruction *)

Lemma leaf_count_bound n t :
  wf n t -> Z.of_nat (stored_points t) <= INT_MAX ->
  Z.of_nat (length (leaves t)) <= INT_MAX.
Proof.
  intros Hwf Hmax. destruct (decide (depth_ t = 0)) as [Hd|Hd].
  - rewrite leaves_leaf by done. simpl. unfold INT_MAX. lia.
  - pose proof (length_le_stored _ (leaves_have_points _ _ Hwf Hd)) as Hle.
    unfold stored_points in Hmax. lia.
Qed.


Lemma leaf_mesh_reconstructed leaf :
  is_Some (reconstructor leaf) ->
  leaf_mesh (reconstructed_leaf build_mesh leaf) = built_mesh build_mesh leaf.
Proof.
  intros [r Hr]. unfold reconstructed_leaf, leaf_mesh, built_mesh.
  by rewrite Hr.
Qed.

(** X7.  After [reconstruct], [getMesh] returns the meshes the
    collaborators build from the buffers of the materialised leaves,
    concatenated by ascending octant. *)
Theorem mesh_after_reconstruct t fuel :
  InTree build_mesh t -> (Z.to_nat (depth_ t) < fuel)%nat ->
  exists t',
    reconstruct build_mesh fuel t = Some (tt, t') /\
    getMesh fuel t' =
      Some (concat (built_mesh build_mesh <$> leaves t), t').
Proof.
  intros Ht Hfuel. pose proof (InTree_wf _ _ Ht) as Hwf.
  exists (reconstructed build_mesh (Z.to_nat (depth_ t)) t).
  split; [by apply reconstruct_reconstructed|].
  rewrite (getMesh_wf fuel (Z.to_nat (depth_ t)))
    by (done || by apply reconstructed_wf).
  rewrite leaves_reconstructed by done.
  rewrite <- list_fmap_compose. do 3 f_equal.
  apply list_fmap_ext. intros k leaf Hleaf. simpl.
  apply leaf_mesh_reconstructed.
  by eapply leaves_are_leaves, list_elem_of_lookup_2.
Qed.

Lemma mesh_new position range depth :
  concat (leaf_mesh <$>
            leaves (new_ReconstructionOcTree position range depth)) = [].
Proof.
  unfold new_ReconstructionOcTree. cbn [leaves].
  by destruct (depth =? 0).
Qed.

Lemma mesh_inserted point n : forall t,
  wf n t -> depth_ t = Z.of_nat n ->
  concat (leaf_mesh <$> leaves (inserted n point t)) =
  concat (leaf_mesh <$> leaves t).
Proof.
  induction n as [|n IH]; intros t Hwf Hd.
  - by rewrite !leaves_leaf by done.
  - destruct (wf_child_for n point t Hwf Hd) as [Hwfc Hdc].
    destruct (inserted_wf point _ _ Hwf Hd) as [Hwf' _].
    destruct (wf_arrays _ _ Hwf) as [Hcs Hav].
    pose proof (octant_of_lt (position_ t) (halfRange_ t) point) as Hi.
    rewrite (mesh_internal (S n) (inserted _ _ _))
      by (done || rewrite inserted_depth; lia).
    rewrite (mesh_internal (S n) t) by (done || lia).
    f_equal. apply list_fmap_ext. intros _ j _.
    destruct (decide (octant_of (position_ t) (halfRange_ t) point = j))
      as [<-|Hj].
    + rewrite (at_slot_child_for point t) by apply mesh_new.
      unfold at_slot. cbn [inserted]. rewrite with_child_slot by lia.
      rewrite decide_True by done. by apply IH.
    + unfold at_slot. cbn [inserted]. rewrite with_child_slot by lia.
      by rewrite decide_False.
Qed.

(** X8.  [addPoint] does not change what [getMesh] returns: the mesh stays
    the one of the last [reconstruct] until [reconstruct] is called
    again. *)
Theorem insert_keeps_mesh t point fuel :
  Reachable build_mesh t -> 0 <= depth_ t ->
  (Z.to_nat (depth_ t) < fuel)%nat ->
  exists t' mesh,
    addPoint fuel point t = Some (tt, t') /\
    getMesh fuel t = Some (mesh, t) /\
    getMesh fuel t' = Some (mesh, t').
Proof.
  intros Hr Hd Hfuel. pose proof (Reachable_wf _ _ Hr) as Hwf.
  set (n := Z.to_nat (depth_ t)) in *.
  exists (inserted n point t), (concat (leaf_mesh <$> leaves t)).
  split; [apply addPoint_inserted; [done|lia|done]|].
  split; [by apply (getMesh_wf fuel n)|].
  rewrite <- (mesh_inserted point n t) by (done || lia).
  apply (getMesh_wf fuel n); [|done]. apply inserted_wf; [done|lia].
Qed.

(** X9.  Off the thresholds the two computations agree up to the
    conversion to [float]: when on each axis exactly one of coordinate <
    threshold and coordinate > threshold holds, the [childPosition] of
    [initChild] is the low corner of the octant that [getChildIndex]
    selects, stored in a [glm::vec3].  The components of the position are
    [float]s already. *)
Theorem child_origin_off_threshold position halfRange point :
  vec3_narrow position = position ->
  s_ltb (vx point) (s_add (vx position) halfRange) =
    negb (s_gtb (vx point) (s_add (vx position) halfRange)) ->
  s_ltb (vy point) (s_add (vy position) halfRange) =
    negb (s_gtb (vy point) (s_add (vy position) halfRange)) ->
  s_ltb (vz point) (s_add (vz position) halfRange) =
    negb (s_gtb (vz point) (s_add (vz position) halfRange)) ->
  childPosition position halfRange point =
  vec3_narrow
    (octant_origin position halfRange (octant_of position halfRange point)).
Proof.
  unfold childPosition, octant_origin, octant_of, vec3_narrow.
  destruct position as [px py pz]. cbn [vx vy vz].
  intros [= Hx Hy Hz] -> -> ->.
  by destruct (s_gtb (vx point) _), (s_gtb (vy point) _),
    (s_gtb (vz point) _); simpl; rewrite ?Hx, ?Hy, ?Hz.
Qed.

Lemma getPoints_hollow location fuel t :
  wf 0 t -> getPoints (S fuel) location t = Some (points_ t, t).
Proof.
  intros Hwf. cbn [getPoints]. unfold bind. rewrite getChildIndex_eq.
  unfold gets. destruct (depth_ t =? 0); [done|].
  set (i := octant_of _ _ _).
  destruct (wf_arrays _ _ Hwf) as [_ Hav].
  pose proof (octant_of_lt (position_ t) (halfRange_ t) location) as Hi.
  fold i in Hi.
  destruct (lookup_lt_is_Some_2 (is_available_ t) i) as [b Hb]; [lia|].
  rewrite (is_available_lookup _ _ _ Hb). destruct b; [|done].
  destruct (wf_available _ _ _ Hwf Hb) as [c Hc].
  by rewrite wf_O_slot in Hc.
Qed.

(** X10.  A root into which nothing was inserted answers 0 to [getSize],
    the empty sequence to [getPoints] and to [getMesh], and to
    [getClusterCount] 1 when it is a leaf (depth 0) and 0 otherwise. *)
Theorem fresh_root_answers position range depth location fuel :
  in_int depth = true ->
  let root := new_ReconstructionOcTree position range depth in
  getSize (S fuel) root = Some (0, root) /\
  getPoints (S fuel) location root = Some ([], root) /\
  getMesh (S fuel) root = Some ([], root) /\
  getClusterCount (S fuel) root =
    Some (if depth =? 0 then 1 else 0, root).
Proof.
  intros Hd root. pose proof (wf_new 0 position range depth Hd) as Hwf.
  fold root in Hwf.
  split.
  { rewrite (getSize_wf (S fuel) 0) by
      (done || lia || (unfold root; rewrite stored_points_new; done)).
    unfold root. by rewrite stored_points_new. }
  split.
  { by rewrite (getPoints_hollow location fuel root Hwf). }
  split.
  { rewrite (getMesh_wf (S fuel) 0) by (done || lia).
    unfold root. by rewrite mesh_new. }
  rewrite (getClusterCount_wf (S fuel) 0); try done; try lia.
  - do 2 f_equal. unfold root, new_ReconstructionOcTree. cbn [leaves].
    by destruct (depth =? 0).
  - unfold root, new_ReconstructionOcTree. cbn [leaves].
    by destruct (depth =? 0).
Qed.

Lemma filter_all {B} (f : B -> bool) (l : list B) :
  (forall x, f x = true) -> List.filter f l = l.
Proof.
  intros Hf. induction l as [|x l IH]; simpl; [done|]. by rewrite Hf, IH.
Qed.

(** X11.  A root of depth 0 is a single leaf: in every state of it
    [getPoints] returns, for every location, all the points inserted so
    far in the order of their insertion, and [getClusterCount] returns
    1. *)
Theorem leaf_root_is_one_buffer t points location fuel :
  History build_mesh t points -> depth_ t = 0 ->
  getPoints (S fuel) location t = Some (points, t) /\
  getClusterCount (S fuel) t = Some (1, t).
Proof.
  intros Hh Hd. split.
  - rewrite (getPoints_History t points) by (done || rewrite Hd; simpl; lia).
    rewrite Hd. do 2 f_equal. change (Z.to_nat 0) with 0%nat.
    by apply filter_all.
  - cbn [getClusterCount]. unfold bind, gets, ret. by rewrite Hd.
Qed.

(** ** Clusters and routes *)

Lemma sum_list_with_zero {B} (l : list B) :
  sum_list_with (fun _ => 0%nat) l = 0%nat.
Proof. induction l; simpl; [done|]. by rewrite IHl. Qed.

Lemma elem_of_keyed {B} (key : B -> nat) (val : B -> list nat) (l : list B)
    k v :
  k :: v ∈ (fun x => key x :: val x) <$> l <->
  v ∈ val <$> List.filter (fun x => Nat.eqb (key x) k) l.
Proof.
  rewrite !list_elem_of_fmap. split.
  - intros (x & [= -> ->] & Hx). exists x. split; [done|].
    apply list_elem_of_In, List.filter_In. split; [by apply list_elem_of_In|].
    apply Nat.eqb_refl.
  - intros (x & -> & Hx).
    apply list_elem_of_In, List.filter_In in Hx as [Hx <-%Nat.eqb_eq].
    exists x. split; [done|by apply list_elem_of_In].
Qed.

Lemma remove_dups_cons {B} `{EqDecision B} (a : B) (l : list B) :
  remove_dups (a :: l) =
  if decide (a ∈ l) then remove_dups l else a :: remove_dups l.
Proof. done. Qed.

(** The distinct keyed values of a list, counted key by key. *)
Lemma distinct_by_key {B} (key : B -> nat) (val : B -> list nat)
    (range : list nat) (l : list B) :
  NoDup range -> (forall x, x ∈ l -> key x ∈ range) ->
  length (remove_dups ((fun x => key x :: val x) <$> l)) =
  sum_list_with
    (fun i =>
       length (remove_dups
                 (val <$> List.filter (fun x => Nat.eqb (key x) i) l)))
    range.
Proof.
  intros Hnd. induction l as [|x l IH]; intros Hkey.
  - simpl. by rewrite sum_list_with_zero.
  - assert (forall y, y ∈ l -> key y ∈ range) as Hkey'.
    { intros y Hy. apply Hkey. by apply elem_of_cons; right. }
    assert (key x ∈ range) as Hk by (apply Hkey; by apply elem_of_cons; left).
    assert (forall i, key x <> i ->
              List.filter (fun y => Nat.eqb (key y) i) (x :: l) =
              List.filter (fun y => Nat.eqb (key y) i) l) as Hother.
    { intros i Hi. simpl. by apply Nat.eqb_neq in Hi as ->. }
    assert (List.filter (fun y => Nat.eqb (key y) (key x)) (x :: l) =
            x :: List.filter (fun y => Nat.eqb (key y) (key x)) l) as Hhere.
    { simpl. by rewrite Nat.eqb_refl. }
    rewrite fmap_cons, remove_dups_cons. case_decide as Hin.
    + rewrite IH by done. apply sum_list_with_ext. intros i _.
      destruct (decide (key x = i)) as [<-|Hi].
      * rewrite Hhere, fmap_cons, remove_dups_cons.
        rewrite decide_True; [done|]. by apply elem_of_keyed.
      * by rewrite Hother.
    + cbn [length]. rewrite IH by done. symmetry.
      apply (sum_list_with_update _ _ (key x)); try done.
      * intros j Hj. by rewrite Hother.
      * rewrite Hhere, fmap_cons, remove_dups_cons.
        rewrite decide_False; [done|].
        intros Hv. apply Hin. by apply elem_of_keyed.
Qed.

Lemma distinct_constant {B} `{EqDecision B} (c : B) (l : list B) :
  l <> [] -> (forall x, x ∈ l -> x = c) -> length (remove_dups l) = 1%nat.
Proof.
  induction l as [|x l IH]; [done|]. intros _ Hc. rewrite remove_dups_cons.
  destruct l as [|y l].
  - rewrite decide_False; [done|]. apply not_elem_of_nil.
  - rewrite decide_True.
    + apply IH; [done|]. intros z Hz. apply Hc. by apply elem_of_cons; right.
    + rewrite (Hc x) by (by apply elem_of_cons; left).
      rewrite <- (Hc y) at 1
        by (apply elem_of_cons; right; by apply elem_of_cons; left).
      by apply elem_of_cons; left.
Qed.

(** The materialised leaves are as many as the distinct routes of the
    stored points. *)
Lemma holds_leaf_count n : forall t range points,
  wf n t -> depth_ t = Z.of_nat n -> holds n range t points ->
  (n = 0%nat -> points <> []) ->
  length (leaves t) = length (remove_dups (route n range <$> points)).
Proof.
  induction n as [|n IH]; intros t range points Hwf Hd Hholds Hne.
  - rewrite leaves_leaf by done. symmetry.
    apply (distinct_constant []).
    + specialize (Hne eq_refl). by destruct points.
    + by intros x (p & -> & _)%list_elem_of_fmap.
  - rewrite (leaf_count_internal (S n)) by (done || lia).
    cbn [route].
    rewrite (distinct_by_key
               (fun p => octant_of vec3_default (s_half range) p)
               (route n (s_half range)) octants).
    + apply sum_list_with_ext. intros i _. unfold at_slot.
      destruct Hholds as (_ & _ & _ & Hslots). specialize (Hslots i).
      fold (routed_to i range).
      destruct (slot t i) as [c|] eqn:Hc.
      * destruct (wf_S_slot _ _ _ _ Hwf Hc) as (Hdc & Hwfc & Hpts).
        apply IH; [done|lia|done|]. intros ->.
        destruct Hslots as (_ & _ & _ & <-). apply Hpts. lia.
      * by rewrite Hslots.
    + apply NoDup_seq.
    + intros p _. apply elem_of_seq.
      pose proof (octant_of_lt vec3_default (s_half range) p). lia.
Qed.

(** X12.  In every state of a root, [getClusterCount] returns the number
    of distinct routes among the points inserted so far, except on a root
    of depth 0 that has received no point (there it returns 1). *)
Theorem cluster_count_is_distinct_routes t points fuel :
  History build_mesh t points ->
  (depth_ t = 0 -> points <> []) ->
  (Z.to_nat (depth_ t) < fuel)%nat ->
  Z.of_nat (length points) <= INT_MAX ->
  getClusterCount fuel t =
  Some (Z.of_nat
          (length (remove_dups
                     (route (Z.to_nat (depth_ t)) (range_ t) <$> points))),
        t).
Proof.
  intros Hh Hne Hfuel Hmax.
  pose proof (Reachable_wf _ _ (History_Reachable _ _ Hh)) as Hwf.
  destruct (History_holds _ _ Hh) as [Hholds Hs].
  assert (length (leaves t) =
          length (remove_dups
                    (route (Z.to_nat (depth_ t)) (range_ t) <$> points)))
    as <-.
  { destruct (Z.lt_ge_cases (depth_ t) 0) as [Hneg|Hpos].
    - replace (Z.to_nat (depth_ t)) with 0%nat in * by lia.
      rewrite leaves_hollow by (done || lia).
      destruct Hholds as (_ & _ & _ & <-).
      by rewrite (wf_internal _ _ Hwf) by lia.
    - apply holds_leaf_count; try done; [lia|].
      intros Hn. apply Hne. lia. }
  apply (getClusterCount_wf fuel (Z.to_nat (depth_ t))); try done.
  apply (leaf_count_bound (Z.to_nat (depth_ t))); [done|by rewrite Hs].
Qed.

End Histories.

(** * Sample runs of the further properties *)

Section SampleHistories.

Context `{Scalar}.
Variable build_mesh : list vec3 -> list vec3.

Lemma History_addPoints new : forall fuel t points t',
  History build_mesh t points -> addPoints fuel new t = Some t' ->
  History build_mesh t' (points ++ new).
Proof.
  induction new as [|point new IH]; intros fuel t points t' Hh; simpl.
  - intros [= <-]. by rewrite app_nil_r.
  - destruct (addPoint fuel point t) as [[[] t1]|] eqn:Hadd; [|done].
    intros Hrun. replace (points ++ point :: new)
      with ((points ++ [point]) ++ new) by by rewrite <- app_assoc.
    apply (IH fuel t1); [|done].
    apply (History_call _ t points fuel (CallAddPoint point)); [done|].
    simpl. by rewrite Hadd.
Qed.

End SampleHistories.

Import MoreSamples.

Lemma filled_history : History points_as_mesh filled scenario.
Proof.
  apply (History_addPoints _ scenario 3 root []); [|apply filled_run].
  by apply History_new.
Qed.

Lemma grown_history : History points_as_mesh grown scenario.
Proof.
  rewrite <- (app_nil_r scenario).
  apply (History_call _ filled scenario 3 CallReconstruct);
    [apply filled_history|].
  vm_compute. reflexivity.
Qed.

Lemma leaf_pair_history : History points_as_mesh leaf_pair pair.
Proof.
  apply (History_addPoints _ pair 1 leaf_root []); [by apply History_new|].
  vm_compute. reflexivity.
Qed.

Lemma size_is_history_length_witness : getSize 3 grown = Some (3, grown).
Proof.
  apply (size_is_history_length points_as_mesh grown scenario 3).
  - apply grown_history.
  - vm_compute. lia.
  - by vm_compute.
Defined.

Lemma points_near_is_route_class_witness :
  getPoints 3 (point 1.5 0.5 1) grown = Some ([point 1 1 1], grown).
Proof.
  apply (points_near_is_route_class points_as_mesh grown scenario
           (point 1.5 0.5 1) 3).
  - apply grown_history.
  - vm_compute. lia.
Defined.

Lemma node_geometry_witness :
  position_ first_leaf = vec3_default /\
  halfRange_ first_leaf = s_half (range_ first_leaf) /\
  range_ first_leaf = Nat.iter 2 s_half (range_ grown) /\
  depth_ first_leaf = depth_ grown - 2.
Proof.
  apply (node_geometry points_as_mesh grown [0%nat; 0%nat] first_leaf).
  - apply grown_reachable.
  - reflexivity.
Defined.

Lemma materialised_child_witness :
  0 < depth_ first_child /\
  depth_ first_leaf = depth_ first_child - 1 /\
  points_ first_child = [] /\
  InTree points_as_mesh first_leaf /\
  (depth_ first_leaf = 0 ->
   is_Some (reconstructor first_leaf) /\ points_ first_leaf <> []).
Proof.
  apply (materialised_child points_as_mesh first_child 0 first_leaf).
  - exists grown, [0%nat]. split; [apply grown_reachable|reflexivity].
  - reflexivity.
Defined.

Lemma insert_diverges_below_zero_witness :
  addPoint 5 (point 1 1 1) negative_root = None.
Proof.
  apply (insert_diverges_below_zero points_as_mesh negative_root
           (point 1 1 1) 5).
  - apply negative_root_reachable.
  - vm_compute. reflexivity.
Defined.


Lemma mesh_after_reconstruct_witness :
  exists t',
    reconstruct points_as_mesh 3 filled = Some (tt, t') /\
    getMesh 3 t' = Some ([point 1 1 1; point 1 1 7; point 7 7 7], t').
Proof.
  apply (mesh_after_reconstruct points_as_mesh filled 3).
  - apply Reachable_InTree.
    apply (Reachable_addPoints _ scenario 3 root);
      [apply root_reachable|apply filled_run].
  - vm_compute. lia.
Defined.

Lemma insert_keeps_mesh_witness :
  exists t' mesh,
    addPoint 3 (point 5 5 5) grown = Some (tt, t') /\
    getMesh 3 grown = Some (mesh, grown) /\
    getMesh 3 t' = Some (mesh, t').
Proof.
  apply (insert_keeps_mesh points_as_mesh grown (point 5 5 5) 3).
  - apply grown_reachable.
  - by vm_compute.
  - vm_compute. lia.
Defined.

(** For the half range 0.1 the stored corner is the [float] next to it,
    above the threshold that [getChildIndex] compares with. *)
Lemma child_origin_off_threshold_witness :
  childPosition (point 0 0 0) 0x1.999999999999ap-4%float (point 0 0.5 0) =
  point 0 0x1.99999ap-4 0.
Proof.
  apply (child_origin_off_threshold (point 0 0 0) 0x1.999999999999ap-4%float
           (point 0 0.5 0)); vm_compute; reflexivity.
Defined.

Lemma fresh_root_answers_witness :
  getSize 1 root = Some (0, root) /\
  getPoints 1 (point 1 1 1) root = Some ([], root) /\
  getMesh 1 root = Some ([], root) /\
  getClusterCount 1 root = Some (0, root).
Proof.
  apply (fresh_root_answers (point 0 0 0) 8%float 2 (point 1 1 1) 0).
  reflexivity.
Defined.

Lemma leaf_root_is_one_buffer_witness :
  getPoints 1 (point 3 3 3) leaf_pair = Some (pair, leaf_pair) /\
  getClusterCount 1 leaf_pair = Some (1, leaf_pair).
Proof.
  apply (leaf_root_is_one_buffer points_as_mesh leaf_pair pair
           (point 3 3 3) 0).
  - apply leaf_pair_history.
  - reflexivity.
Defined.

Lemma cluster_count_is_distinct_routes_witness :
  getClusterCount 3 grown = Some (3, grown).
Proof.
  apply (cluster_count_is_distinct_routes points_as_mesh grown scenario 3).
  - apply grown_history.
  - by vm_compute.
  - vm_compute. lia.
  - by vm_compute.
Defined.

(** * The video frame *)

Import Scene.

Lemma uint8_in_range (x : Z) : 0 <= x <= 255 -> In x (seqZ 0 256).
Proof. intros Hx. apply list_elem_of_In, elem_of_seqZ. lia. Qed.

Lemma even_half (n : Z) : n mod 2 = 0 -> n = 2 * (n / 2).
Proof. intros Hn. pose proof (Z.div_mod n 2). lia. Qed.

Lemma half_bounds (i b : Z) : 0 <= i < 2 * b -> 0 <= i / 2 <= b - 1.
Proof.
  intros Hi. pose proof (Z.div_mod i 2). pose proof (Z.mod_pos_bound i 2).
  lia.
Qed.

(** The column of the chroma pair of a pixel is its column rounded down to
    an even number. *)
Lemma x_index_even (j : Z) : x_index j = 2 * (j / 2).
Proof.
  unfold x_index. pose proof (Z.div_mod j 2).
  pose proof (Z.mod_pos_bound j 2).
  destruct (j mod 2 =? 0) eqn:E; cbn [negb].
  - apply Z.eqb_eq in E. lia.
  - apply Z.eqb_neq in E. lia.
Qed.

(** X13.  [Yuv2Rgb] keeps a pixel of neutral chroma: for u = v = 128 the
    three channels are the luma. *)
Theorem neutral_chroma_is_grey (yValue : Z) :
  0 <= yValue <= 255 -> Yuv2Rgb yValue 128 128 = Some (yValue, yValue, yValue).
Proof.
  intros Hy.
  assert (forallb is_grey (seqZ 0 256) = true) as Hall
    by (vm_compute; reflexivity).
  rewrite forallb_forall in Hall.
  specialize (Hall yValue (uint8_in_range _ Hy)). unfold is_grey in Hall.
  destruct (Yuv2Rgb yValue 128 128) as [[[r g] b]|]; [|done].
  apply andb_true_iff in Hall as [[Hr Hg]%andb_true_iff Hb].
  apply Z.eqb_eq in Hr, Hg, Hb. congruence.
Qed.

Lemma neutral_chroma_is_grey_witness :
  Yuv2Rgb 200 128 128 = Some (200, 200, 200).
Proof. apply (neutral_chroma_is_grey 200). lia. Defined.

(** X14.  [Yuv2Rgb] does not clamp: for every chroma other than the
    neutral one, the conversion of the black pixel (luma 0) or of the white
    pixel (luma 255) leaves the range of [uint8_t], where the conversion of
    the [double] is undefined. *)
Theorem other_chroma_leaves_range (uValue vValue : Z) :
  0 <= uValue <= 255 -> 0 <= vValue <= 255 ->
  uValue <> 128 \/ vValue <> 128 ->
  Yuv2Rgb 0 uValue vValue = None \/ Yuv2Rgb 255 uValue vValue = None.
Proof.
  intros Hu Hv Hne.
  assert (forallb (fun u => forallb (neutral_or_undefined u) (seqZ 0 256))
            (seqZ 0 256) = true) as Hall by (vm_compute; reflexivity).
  rewrite forallb_forall in Hall.
  specialize (Hall uValue (uint8_in_range _ Hu)).
  rewrite forallb_forall in Hall.
  specialize (Hall vValue (uint8_in_range _ Hv)).
  unfold neutral_or_undefined, undefined_at_extreme in Hall.
  apply orb_true_iff in Hall as [Hn|Hall].
  - apply andb_true_iff in Hn as [Hu'%Z.eqb_eq Hv'%Z.eqb_eq]. lia.
  - destruct (Yuv2Rgb 0 uValue vValue); [|by left].
    destruct (Yuv2Rgb 255 uValue vValue); [done|by right].
Qed.

Lemma other_chroma_leaves_range_witness :
  Yuv2Rgb 0 128 127 = None \/ Yuv2Rgb 255 128 127 = None.
Proof. apply (other_chroma_leaves_range 128 127); lia. Defined.

(** X15.  For a frame of even width and even height whose RGB size fits
    an [int], every index that [FillRGBTexture] uses lies inside the buffer
    that [OnFrameAvailable] sized for it: the luma in the first width * height bytes of the YUV
    buffer, the v and the u sample behind them, v right before u, and the
    three channels inside the RGB buffer. *)
Theorem frame_indices_in_bounds (width height i j : Z) :
  0 < width -> 0 < height -> rgb_size width height <= INT_MAX ->
  width mod 2 = 0 -> height mod 2 = 0 ->
  0 <= i < height -> 0 <= j < width ->
  0 <= y_at width i j < uv_buffer_offset width height /\
  uv_buffer_offset width height <= v_at width height i j /\
  u_at width height i j = v_at width height i j + 1 /\
  u_at width height i j < yuv_size width height /\
  0 <= rgb_index width i j /\
  rgb_index width i j + 2 < rgb_size width height.
Proof.
  intros Hw Hh _ Hwe Hhe Hi Hj.
  unfold y_at, v_at, u_at, yuv_size, rgb_index, rgb_size, uv_buffer_offset.
  rewrite x_index_even.
  apply even_half in Hwe, Hhe.
  set (a := width / 2) in *. set (b := height / 2) in *.
  clearbody a b. subst width height.
  replace (2 * a * (2 * b) / 2) with (2 * a * b)
    by (apply Z.div_unique_exact; lia).
  pose proof (half_bounds i b Hi). pose proof (half_bounds j a Hj).
  set (q := i / 2) in *. set (c := j / 2) in *. clearbody q c.
  repeat split; nia.
Qed.

Lemma frame_indices_in_bounds_witness :
  0 <= y_at 4 1 3 < uv_buffer_offset 4 2 /\
  uv_buffer_offset 4 2 <= v_at 4 2 1 3 /\
  u_at 4 2 1 3 = v_at 4 2 1 3 + 1 /\
  u_at 4 2 1 3 < yuv_size 4 2 /\
  0 <= rgb_index 4 1 3 /\
  rgb_index 4 1 3 + 2 < rgb_size 4 2.
Proof.
  apply (frame_indices_in_bounds 4 2 1 3); try lia; by vm_compute.
Defined.

(** X16.  For a frame of even width and odd height whose RGB size fits an
    [int], the u sample that [FillRGBTexture] reads for the last pixel lies
    past the end of the YUV buffer: [OnFrameAvailable] rounds the size of
    the chroma plane down. *)
Theorem odd_height_reads_past_end (width height : Z) :
  2 <= width -> 0 < height -> rgb_size width height <= INT_MAX ->
  width mod 2 = 0 -> height mod 2 = 1 ->
  yuv_size width height <= u_at width height (height - 1) (width - 1).
Proof.
  intros Hw Hh _ Hwe Hho.
  unfold u_at, yuv_size, uv_buffer_offset. rewrite x_index_even.
  apply even_half in Hwe.
  assert (height = 2 * (height / 2) + 1) as Hhe
    by (pose proof (Z.div_mod height 2); lia).
  set (a := width / 2) in *. set (b := height / 2) in *.
  clearbody a b. subst width height.
  replace (2 * a * (2 * b + 1) / 2) with (a * (2 * b + 1))
    by (apply Z.div_unique_exact; lia).
  replace ((2 * b + 1 - 1) / 2) with b by (apply Z.div_unique_exact; lia).
  replace ((2 * a - 1) / 2) with (a - 1)
    by (apply (Z.div_unique _ _ _ 1); lia).
  nia.
Qed.

Lemma odd_height_reads_past_end_witness :
  yuv_size 4 3 <= u_at 4 3 2 3.
Proof.
  apply (odd_height_reads_past_end 4 3); try lia; by vm_compute.
Defined.

(** X17.  [FillRGBTexture] gives two pixels of a frame of even width,
    whose RGB size fits an [int], the same chroma pair exactly when they
    lie in the same block of two rows and two columns. *)
Theorem chroma_shared_by_block (width height i j i' j' : Z) :
  0 < width -> rgb_size width height <= INT_MAX -> width mod 2 = 0 ->
  0 <= i < height -> 0 <= i' < height ->
  0 <= j < width -> 0 <= j' < width ->
  (v_at width height i j = v_at width height i' j' /\
   u_at width height i j = u_at width height i' j') <->
  (i / 2 = i' / 2 /\ j / 2 = j' / 2).
Proof.
  intros Hw _ Hwe Hi Hi' Hj Hj'. unfold v_at, u_at.
  rewrite !x_index_even.
  apply even_half in Hwe. set (a := width / 2) in *. clearbody a.
  subst width.
  pose proof (half_bounds j a Hj). pose proof (half_bounds j' a Hj').
  set (q := i / 2). set (q' := i' / 2).
  set (c := j / 2) in *. set (c' := j' / 2) in *. clearbody q q' c c'.
  split.
  - intros [Hv _].
    assert (q = q') as -> by nia. split; [done|lia].
  - intros [-> ->]. done.
Qed.

Lemma chroma_shared_by_block_witness :
  (v_at 4 2 0 2 = v_at 4 2 1 3 /\ u_at 4 2 0 2 = u_at 4 2 1 3) <->
  (0 / 2 = 1 / 2 /\ 2 / 2 = 3 / 2).
Proof.
  apply (chroma_shared_by_block 4 2 0 2 1 3); try lia; by vm_compute.
Defined.
